(** * modeline: a Vim-style modeline parser and its line-window scanner

    Shallow embedding of [parse.go] (line tokenizer) and [modeline.go]
    (window scanner) of the Go package [modeline], followed by the
    properties of the package's specification.

    Conventions of the embedding:
    - a Go [string] is a sequence of bytes: [list ascii];
    - a Go [map[string]string] is a [gmap] from byte strings to byte strings;
    - a Go [int] is a [Z] whose 64-bit two's-complement wrap-around is
      written out at every arithmetic operation ([int_add], [int_sub],
      [int_mul]);
    - a function returning [(value, error)] returns a [result]; where a
      run-time panic is possible (index or slice bound out of range, negative
      capacity) it returns an [outcome], whose third case is the panic;
    - the [bufio.Scanner] over the reader is the list of lines still to be
      delivered, together with the read error (if any) that ends the input. *)

From Stdlib Require Import ZArith Ascii String Lia.
From stdpp Require Import base decidable option list sorting gmap strings.

Local Open Scope Z_scope.

(** ** Go strings *)

Abbreviation gostring := (list ascii).

(** A string literal as a Go string. *)
Definition str (s : string) : gostring := String.list_ascii_of_string s.

(** ** Go [int] arithmetic (64-bit platforms) *)

Definition int_wrap (z : Z) : Z := (z + 2 ^ 63) mod 2 ^ 64 - 2 ^ 63.
Definition int_add (a b : Z) : Z := int_wrap (a + b).
Definition int_sub (a b : Z) : Z := int_wrap (a - b).
Definition int_mul (a b : Z) : Z := int_wrap (a * b).

(** ** Errors and results *)

(** [ErrNoModeline] is the package variable of that name;
    [ErrMalformedModeline] is the error value built in [parseOptions]
    ("malformed modeline: ends with ':' but missing 'se[t]'");
    [ErrRead] stands for any error reported by the underlying reader. *)
Inductive error : Type :=
  | ErrNoModeline
  | ErrMalformedModeline
  | ErrRead (code : nat).

(** A Go return value of type [(A, error)]. *)
Inductive result (A : Type) : Type :=
  | Ok (a : A)
  | Err (e : error).
Arguments Ok {A} a.
Arguments Err {A} e.

(** A call that may also panic at run time. *)
Inductive outcome (A : Type) : Type :=
  | Returns (a : A)
  | Fails (e : error)
  | Panics.
Arguments Returns {A} a.
Arguments Fails {A} e.
Arguments Panics {A}.

(** ** The data model of [modeline.go] *)

Record Modeline : Type := mkModeline {
  Program : gostring;
  Options : gmap gostring gostring;
  RawLine : gostring
}.

Record Scanner : Type := mkScanner {
  ScanTop : bool;
  ScanBottom : bool;
  MaxLines : Z
}.

Definition defaultScanner : Scanner :=
  {| ScanTop := true; ScanBottom := true; MaxLines := 5 |}.

(** The input of [Scan]: the lines the [bufio.Scanner] delivers, and the
    error (if any) with which the reader stops after them. *)
Record Reader : Type := mkReader {
  rd_lines : list gostring;
  rd_err : option error
}.

(** A source whose lines the scanner delivers without any read error, such
    as a [strings.NewReader] over a text made of the given lines. *)
Definition NewReader (lines : list gostring) : Reader :=
  {| rd_lines := lines; rd_err := None |}.

(** ** The parts of Go's [strings] package used by [parse.go]

    The separators and cut sets used by the package are ASCII, and no byte
    of a multi-byte UTF-8 sequence is ASCII, so the rune-wise library
    functions act byte-wise here. *)
Module strings.

(** [len(s) >= len(prefix) && s[:len(prefix)] == prefix] *)
Definition HasPrefix (s prefix : gostring) : bool :=
  bool_decide (length prefix ≤ length s)%nat
  && bool_decide (take (length prefix) s = prefix).

(** [len(s) >= len(suffix) && s[len(s)-len(suffix):] == suffix] *)
Definition HasSuffix (s suffix : gostring) : bool :=
  bool_decide (length suffix ≤ length s)%nat
  && bool_decide (drop (length s - length suffix) s = suffix).

Definition inCutset (cutset : gostring) (c : ascii) : bool :=
  bool_decide (c ∈ cutset).

(** Drop the leading bytes that belong to [cutset]. *)
Fixpoint TrimLeft (s cutset : gostring) : gostring :=
  match s with
  | [] => []
  | c :: s' => if inCutset cutset c then TrimLeft s' cutset else s
  end.

(** Drop the trailing bytes that belong to [cutset]. *)
Fixpoint TrimRight (s cutset : gostring) : gostring :=
  match s with
  | [] => []
  | c :: s' =>
      match TrimRight s' cutset with
      | [] => if inCutset cutset c then [] else [c]
      | t => c :: t
      end
  end.

(** Index of the first instance of [sep] in [s], or [-1]. *)
Fixpoint Index (s sep : gostring) : Z :=
  if HasPrefix s sep then 0
  else match s with
       | [] => -1
       | _ :: s' =>
           match Index s' sep with
           | -1 => -1
           | i => i + 1
           end
       end.

(** [if i := Index(s, sep); i >= 0 { return s[:i], s[i+len(sep):], true };
     return s, "", false] *)
Definition Cut (s sep : gostring) : gostring * gostring * bool :=
  let i := Index s sep in
  if 0 <=? i
  then (take (Z.to_nat i) s, drop (Z.to_nat i + length sep) s, true)
  else (s, [], false).

(** Split [s] at each run of bytes satisfying [f]; no field is empty.
    [cur] is the field being read, in order. *)
Fixpoint FieldsFunc_go (f : ascii → bool) (cur : gostring) (s : gostring)
  : list gostring :=
  match s with
  | [] => if bool_decide (cur = []) then [] else [cur]
  | c :: s' =>
      if f c
      then (if bool_decide (cur = []) then FieldsFunc_go f [] s'
            else cur :: FieldsFunc_go f [] s')
      else FieldsFunc_go f (cur ++ [c]) s'
  end.

Definition FieldsFunc (s : gostring) (f : ascii → bool) : list gostring :=
  FieldsFunc_go f [] s.

End strings.

(** ** [parse.go] *)

Definition isBlank (c : ascii) : bool :=
  bool_decide (c = " "%char) || bool_decide (c = "009"%char).

Definition byte_le (a b : ascii) : bool := (N_of_ascii a <=? N_of_ascii b)%N.

Definition isWordChar (c : ascii) : bool :=
  (byte_le "a" c && byte_le c "z") || (byte_le "A" c && byte_le c "Z")
  || (byte_le "0" c && byte_le c "9") || bool_decide (c = "_"%char).

(** The inner loops of [findProgram]: [for j < len(line) && p(line[j]) { j++ }].
    [skip p s] is [line[j:]] after the loop when [s] is [line[j:]] before it,
    and [scanned p s] is the text passed over. *)
Fixpoint skip (p : ascii → bool) (s : gostring) : gostring :=
  match s with
  | c :: s' => if p c then skip p s' else s
  | [] => []
  end.

Fixpoint scanned (p : ascii → bool) (s : gostring) : gostring :=
  match s with
  | c :: s' => if p c then c :: scanned p s' else []
  | [] => []
  end.

(** [findProgram]: the outer loop over [i] is the recursion; the argument is
    [line[i:]], so [c] is [line[i]] and [tl] is [line[i+1:]]. *)
Fixpoint findProgram (line : gostring) : result (gostring * gostring) :=
  match line with
  | [] => Err ErrNoModeline
  | c :: tl =>
      if isBlank c then
        let atStart := skip isBlank tl in              (* line[start:] *)
        match atStart with
        | [] => findProgram tl                          (* j >= len(line) *)
        | _ =>
            let program := scanned isWordChar atStart in (* line[start:j] *)
            match skip isWordChar atStart with           (* line[j:] *)
            | c' :: rest =>
                if bool_decide (c' = ":"%char)
                   && bool_decide (0 < length program)%nat
                then Ok (program, rest)
                else findProgram tl
            | [] => findProgram tl
            end
        end
      else findProgram tl
  end.

Definition parseOption (token : gostring) : gostring * gostring :=
  match strings.Cut token (str "=") with
  | (key, val, true) => (key, val)
  | _ =>
      if strings.HasPrefix token (str "no") && bool_decide (2 < length token)%nat
      then (drop 2 token, str "false")
      else (token, str "true")
  end.

Definition isSeparator (r : ascii) : bool :=
  bool_decide (r = " "%char) || bool_decide (r = "009"%char)
  || bool_decide (r = ":"%char).

(** One iteration of the loop over the tokens in [parseFirstForm]. *)
Definition addOption (options : gmap gostring gostring) (token : gostring)
  : gmap gostring gostring :=
  if bool_decide (token = []) then options
  else
    let '(key, value) := parseOption token in
    if bool_decide (key ≠ []) then <[key := value]> options else options.

Definition parseFirstForm (text : gostring) : gmap gostring gostring :=
  let tokens := strings.FieldsFunc text isSeparator in
  foldl addOption ∅ tokens.

Definition parseSecondForm (rest : gostring) : result (gmap gostring gostring) :=
  let colonIdx := strings.Index rest (str ":") in
  if bool_decide (colonIdx = -1) then Ok ∅
  else
    let optionsText := take (Z.to_nat colonIdx) rest in
    Ok (parseFirstForm optionsText).

(** The cut set [" \t"]. *)
Definition blanks : gostring := [" "%char; "009"%char].

Definition parseOptions (rest : gostring) : result (gmap gostring gostring) :=
  let rest := strings.TrimLeft rest blanks in
  if strings.HasPrefix rest (str "set ") then parseSecondForm (drop 4 rest)
  else if strings.HasPrefix rest (str "se ") then parseSecondForm (drop 3 rest)
  else if strings.HasSuffix (strings.TrimRight rest blanks) (str ":")
  then Err ErrMalformedModeline
  else Ok (parseFirstForm rest).

(** ** [modeline.go]: [ScanString] *)

Definition ScanString (s : Scanner) (line : gostring) : result Modeline :=
  match findProgram line with
  | Ok (program, rest) =>
      match parseOptions rest with
      | Ok options =>
          Ok {| Program := program; Options := options; RawLine := line |}
      | Err e => Err e
      end
  | Err e => Err e
  end.

(** ** [modeline.go]: [Scan] *)

(** [if m, err := s.ScanString(line); err == nil { modelines = append(modelines, *m) }] *)
Definition collect (s : Scanner) (modelines : list Modeline) (line : gostring)
  : list Modeline :=
  match ScanString s line with
  | Ok m => modelines ++ [m]
  | Err _ => modelines
  end.

(** [for scanner.Scan() && lineCount < s.MaxLines { ...; lineCount++ }].
    [pending] are the lines the scanner has not delivered yet. [scanner.Scan()]
    is evaluated first: when it delivers a line and the count test fails, the
    loop ends with that line consumed. The result is the lines left in the
    scanner, whether the scanner reached the end of the input, the line count
    and the modelines. *)
Fixpoint topLoop (s : Scanner) (pending : list gostring) (lineCount : Z)
    (modelines : list Modeline) : list gostring * bool * Z * list Modeline :=
  match pending with
  | [] => ([], true, lineCount, modelines)
  | line :: pending' =>
      if lineCount <? MaxLines s
      then topLoop s pending' (int_add lineCount 1) (collect s modelines line)
      else (pending', false, lineCount, modelines)
  end.

(** [scanner.Err()]: the read error, once the scanner has stopped on it.
    This is the latest moment at which the error shows: a [bufio.Scanner]
    records the error of a read at once and may still deliver the lines it
    holds, so the code can see the error earlier than this embedding does.
    Whenever the code returns its modelines, so does the embedding, and the
    same ones. *)
Definition scannerErr (r : Reader) (atEnd : bool) : option error :=
  if atEnd then rd_err r else None.

(** [copy(bottomBuffer, bottomBuffer[1:]); bottomBuffer[s.MaxLines-1] = line].
    The slice expression panics on an empty buffer, the assignment on an index
    out of range; [copy] overwrites all cells but the last. *)
Definition shiftIn (s : Scanner) (bottomBuffer : list gostring) (line : gostring)
  : option (list gostring) :=
  match bottomBuffer with
  | [] => None
  | _ :: tl =>
      let copied := tl ++ drop (length tl) bottomBuffer in
      let k := int_sub (MaxLines s) 1 in
      if (0 <=? k) && (k <? Z.of_nat (length copied))
      then Some (<[Z.to_nat k := line]> copied)
      else None
  end.

(** [for scanner.Scan() { ...; lineCount++ }]; [None] is a panic. *)
Fixpoint bottomLoop (s : Scanner) (pending : list gostring)
    (bottomBuffer : list gostring) (lineCount : Z)
  : option (list gostring * Z) :=
  match pending with
  | [] => Some (bottomBuffer, lineCount)
  | line :: pending' =>
      if Z.of_nat (length bottomBuffer) <? MaxLines s
      then bottomLoop s pending' (bottomBuffer ++ [line]) (int_add lineCount 1)
      else
        match shiftIn s bottomBuffer line with
        | Some bottomBuffer' =>
            bottomLoop s pending' bottomBuffer' (int_add lineCount 1)
        | None => None
        end
  end.

(** [for i := startIdx; i < len(bottomBuffer); i++ { ... bottomBuffer[i] ... }],
    with [n] the number of iterations left. *)
Fixpoint parseFrom (s : Scanner) (bottomBuffer : list gostring) (i : Z) (n : nat)
    (modelines : list Modeline) : outcome (list Modeline) :=
  match n with
  | O => Returns modelines
  | S n' =>
      if i <? 0 then Panics
      else
        match bottomBuffer !! Z.to_nat i with
        | Some line =>
            parseFrom s bottomBuffer (int_add i 1) n' (collect s modelines line)
        | None => Panics
        end
  end.

(** [(s *Scanner) Scan]. Of the panics of [make([]string, 0, s.MaxLines)]
    only the one for a negative capacity is part of the embedding; the
    run time also refuses a capacity too large to allocate, so for a very
    large [MaxLines] and a selected bottom window the code panics where this
    definition goes on. *)
Definition Scan (s : Scanner) (r : Reader) : outcome (list Modeline) :=
  if negb (ScanTop s) && negb (ScanBottom s) then Returns []
  else
    let scanner := rd_lines r in
    let modelines := [] in
    if ScanTop s && negb (ScanBottom s) then
      let '(_, atEnd, _, modelines) := topLoop s scanner 0 modelines in
      match scannerErr r atEnd with
      | Some err => Fails err
      | None => Returns modelines
      end
    else if MaxLines s <? 0 then Panics   (* make([]string, 0, s.MaxLines) *)
    else
      let bottomBuffer := [] in
      let lineCount := 0 in
      let afterTop :=
        if ScanTop s then
          let '(scanner, atEnd, lineCount, modelines) :=
            topLoop s scanner lineCount modelines in
          match scannerErr r atEnd with
          | Some err => inl err
          | None => inr (scanner, lineCount, modelines)
          end
        else inr (scanner, lineCount, modelines) in
      match afterTop with
      | inl err => Fails err
      | inr (scanner, lineCount, modelines) =>
          match bottomLoop s scanner bottomBuffer lineCount with
          | None => Panics
          | Some (bottomBuffer, lineCount) =>
              match rd_err r with
              | Some err => Fails err
              | None =>
                  if ScanBottom s then
                    if ScanTop s && (lineCount <=? MaxLines s)
                    then Returns modelines
                    else
                      let startIdx :=
                        if ScanTop s && (lineCount <? int_mul 2 (MaxLines s))
                        then
                          let overlap :=
                            int_sub (int_mul 2 (MaxLines s)) lineCount in
                          int_sub (MaxLines s) overlap
                        else 0 in
                      parseFrom s bottomBuffer startIdx
                        (Z.to_nat (Z.of_nat (length bottomBuffer) - startIdx))
                        modelines
                  else Returns modelines
              end
          end
      end.

(** ** [modeline.go]: [ScanFile] and the package-level functions *)

(** [(s *Scanner) ScanFile]. [os.Open] is the parameter [osOpen]: it gives
    the reader over the file at a path, or the error of opening it. The
    deferred [file.Close()] does not change what is returned. *)
Definition ScanFile (osOpen : gostring → result Reader) (s : Scanner)
    (path : gostring) : outcome (list Modeline) :=
  match osOpen path with
  | Err err => Fails err
  | Ok file => Scan s file
  end.

(** The functions of the package that use [defaultScanner]. *)
Module modeline.

Definition Scan (r : Reader) : outcome (list Modeline) :=
  Scan defaultScanner r.

Definition ScanFile (osOpen : gostring → result Reader) (path : gostring)
  : outcome (list Modeline) :=
  ScanFile osOpen defaultScanner path.

Definition ScanString (line : gostring) : result Modeline :=
  ScanString defaultScanner line.

End modeline.

(** ** [modeline_test.go]: [compareModeline] *)

(** The value returned by [compareModeline(t, got, want)]; the messages it
    reports through [t.Errorf] are left out. The loop over [want.Options]
    returns [false] at the first entry that [got.Options] lacks or maps to
    another value, so its result is the same for every iteration order. *)
Definition compareModeline (got want : Modeline) : bool :=
  if bool_decide (Program got ≠ Program want) then false
  else if bool_decide (size (Options got) ≠ size (Options want)) then false
  else if negb (forallb
                  (λ kv, match Options got !! kv.1 with
                         | None => false
                         | Some gotVal => bool_decide (gotVal = kv.2)
                         end)
                  (map_to_list (Options want)))
  then false
  else if bool_decide (RawLine got ≠ RawLine want) then false
  else true.

(** * Vocabulary of the specification

    The predicates and functions in which the properties below are stated;
    none of them is part of the Go code. *)

(** The range of a Go [int]. *)
Definition is_int (z : Z) : Prop := - 2 ^ 63 ≤ z < 2 ^ 63.

(** What [collect] keeps of a line. *)
Definition parsed (s : Scanner) (line : gostring) : option Modeline :=
  match ScanString s line with
  | Ok m => Some m
  | Err _ => None
  end.

(** The last [m] elements of a list. *)
Definition lastn {A} (m : nat) (l : list A) : list A := drop (length l - m) l.

(** The modelines found at the given (0-based) line positions. *)
Definition parsedAt (s : Scanner) (lines : list gostring) (idxs : list nat)
  : list Modeline :=
  omap (λ i, lines !! i ≫= parsed s) idxs.

(** The line positions that [Scan] hands to [ScanString], for a source of [n]
    lines: with both windows, the bottom window is parsed only when the source
    has more than [2 * MaxLines] lines. *)
Definition windowPositions (s : Scanner) (n : nat) : list nat :=
  let m := Z.to_nat (MaxLines s) in
  match ScanTop s, ScanBottom s with
  | false, false => []
  | true, false => seq 0 (m `min` n)
  | false, true => seq (n - m) (m `min` n)
  | true, true =>
      if decide (n ≤ 2 * m)%nat then seq 0 (m `min` n)
      else seq 0 m ++ seq (n - m) m
  end.

(** A string does not start with a byte satisfying [p]. *)
Definition stopsAt (p : ascii → bool) (s : gostring) : Prop :=
  match s with
  | [] => True
  | c :: _ => p c = false
  end.

(** [line] holds, after the text [pre], a run [ws] of spaces and tabs, then
    an identifier [ident] of word characters, then a colon, then [rest]. *)
Definition programMatch (line pre ws ident rest : gostring) : Prop :=
  line = pre ++ ws ++ ident ++ ":"%char :: rest
  ∧ ws ≠ [] ∧ Forall (λ c, isBlank c = true) ws
  ∧ ident ≠ [] ∧ Forall (λ c, isWordChar c = true) ident.

(** No match of the pattern starts further left. *)
Definition leftmostMatch (line pre ws ident rest : gostring) : Prop :=
  programMatch line pre ws ident rest
  ∧ ∀ pre' ws' ident' rest',
      programMatch line pre' ws' ident' rest' → (length pre ≤ length pre')%nat.

(** The decoding of one option token into a name and a value, in the words
    of the specification: [name=value]; else [no] followed by a non-empty
    name, which is set to ["false"]; else the token itself, set to
    ["true"]. *)
Inductive decodes : gostring → gostring → gostring → Prop :=
  | decodes_assign name value :
      "="%char ∉ name →
      decodes (name ++ "="%char :: value) name value
  | decodes_negated name :
      "="%char ∉ name → name ≠ [] →
      decodes (str "no" ++ name) name (str "false")
  | decodes_plain token :
      "="%char ∉ token →
      (∀ name, name ≠ [] → token ≠ str "no" ++ name) →
      decodes token token (str "true").

(** [name] is decoded from some token, and the last token that decodes to
    [name] gives it [value]. *)
Definition lastDecoding (tokens : list gostring) (name value : gostring)
  : Prop :=
  ∃ before token after,
    tokens = before ++ token :: after
    ∧ decodes token name value
    ∧ ∀ t, t ∈ after → ∀ v, ¬ decodes t name v.

(** The line positions that the embedding of [Scan] parses for every window
    size of type [int]: those of [windowPositions], except that from
    [2 ^ 62] on the product [2 * MaxLines] wraps around to a negative
    number, the overlap test fails and the whole buffer is parsed. *)
Definition scanPositions (s : Scanner) (n : nat) : list nat :=
  let m := Z.to_nat (MaxLines s) in
  if ScanTop s && ScanBottom s && (2 ^ 62 <=? MaxLines s)
     && bool_decide (S m < n)%nat
  then seq 0 m ++ seq (S m) (n - S m)
  else windowPositions s n.

(** C4 as stated: every token of the option region is recorded under its
    decoded name, the last token of a name giving its value. *)
Definition every_token_recorded : Prop :=
  ∀ text name value,
    lastDecoding (strings.FieldsFunc text isSeparator) name value →
    parseFirstForm text !! name = Some value.

(** The remainder [r] (leading blanks trimmed) has the shape that
    [parseOptions] rejects: it begins with neither ["set "] nor ["se "] and,
    once trailing blanks are trimmed, it ends with a colon. *)
Definition danglingColon (r : gostring) : Prop :=
  ¬ str "set " `prefix_of` r
  ∧ ¬ str "se " `prefix_of` r
  ∧ ∃ t ws, r = t ++ ":"%char :: ws ∧ Forall (λ c, isBlank c = true) ws.

(** * Properties *)

(** ** Go [int] arithmetic without overflow *)

Lemma int_wrap_id z : is_int z → int_wrap z = z.
Proof.
  unfold is_int, int_wrap. intros Hz.
  rewrite Z.mod_small by lia. lia.
Qed.

Lemma int_add_id a b : is_int (a + b) → int_add a b = a + b.
Proof. apply int_wrap_id. Qed.

Lemma int_sub_id a b : is_int (a - b) → int_sub a b = a - b.
Proof. apply int_wrap_id. Qed.

Lemma int_mul_id a b : is_int (a * b) → int_mul a b = a * b.
Proof. apply int_wrap_id. Qed.

(** ** The loops of [Scan] *)

Lemma collect_parsed s modelines line :
  collect s modelines line = modelines ++ option_list (parsed s line).
Proof.
  unfold collect, parsed. destruct (ScanString s line); simpl; [done|].
  by rewrite app_nil_r.
Qed.

Lemma foldl_collect s lines modelines :
  foldl (collect s) modelines lines = modelines ++ omap (parsed s) lines.
Proof.
  revert modelines. induction lines as [|l lines IH]; intros ms; simpl.
  - by rewrite app_nil_r.
  - rewrite IH, collect_parsed, <-app_assoc. f_equal.
    by destruct (parsed s l).
Qed.

(** The top loop parses the first [MaxLines - lineCount] lines and consumes
    one line more when there is one. *)
Lemma topLoop_spec s pending lineCount modelines :
  is_int lineCount → is_int (MaxLines s) →
  let k := Z.to_nat (MaxLines s - lineCount) in
  topLoop s pending lineCount modelines
  = (drop (S k) pending,
     bool_decide (length pending ≤ k)%nat,
     lineCount + Z.of_nat (length pending `min` k),
     foldl (collect s) modelines (take k pending)).
Proof.
  revert lineCount modelines.
  induction pending as [|line pending IH]; intros lc ms Hlc HM k; simpl.
  - rewrite take_nil. simpl. by rewrite Z.add_0_r.
  - destruct (Z.ltb_spec lc (MaxLines s)) as [Hlt|Hge].
    + assert (int_add lc 1 = lc + 1) as ->
        by (apply int_add_id; unfold is_int in *; lia).
      rewrite IH by (unfold is_int in *; lia).
      assert (k = S (Z.to_nat (MaxLines s - (lc + 1)))) as Hk by (subst k; lia).
      rewrite Hk. simpl.
      f_equal. f_equal; [f_equal; apply bool_decide_ext; lia | lia].
    + assert (k = 0%nat) as -> by (subst k; lia).
      simpl. by rewrite ?drop_0, ?Z.add_0_r.
Qed.

Lemma lastn_cons_ge {A} m (x : A) l :
  (m ≤ length l)%nat → lastn m (x :: l) = lastn m l.
Proof.
  unfold lastn. intros Hm. simpl.
  replace (S (length l) - m)%nat with (S (length l - m)) by lia. done.
Qed.

Lemma shiftIn_full s x tl line :
  is_int (MaxLines s) → Z.of_nat (length (x :: tl)) = MaxLines s →
  shiftIn s (x :: tl) line = Some (tl ++ [line]).
Proof.
  intros HM Hlen. unfold shiftIn. simpl in Hlen.
  assert (int_sub (MaxLines s) 1 = Z.of_nat (length tl)) as ->.
  { rewrite int_sub_id; unfold is_int in *; lia. }
  destruct tl as [|y tl _] using rev_ind.
  - simpl. done.
  - replace (drop (length (tl ++ [y])) (x :: tl ++ [y])) with [y].
    2:{ rewrite length_app. simpl.
        replace (length tl + 1)%nat with (S (length tl)) by lia. simpl.
        by rewrite drop_app_length. }
    rewrite !length_app. simpl.
    rewrite (proj2 (Z.leb_le _ _)) by lia.
    rewrite (proj2 (Z.ltb_lt _ _)) by lia. simpl.
    rewrite Nat2Z.id. f_equal.
    rewrite insert_app_r_alt by (rewrite length_app; simpl; lia).
    rewrite length_app. simpl.
    replace (length tl + 1 - (length tl + 1))%nat with 0%nat by lia.
    done.
Qed.

(** With a positive capacity the bottom loop never panics and leaves the last
    [MaxLines] of the lines it has been given in the buffer. *)
Lemma bottomLoop_spec s pending bottomBuffer lineCount :
  1 ≤ MaxLines s → is_int (MaxLines s) →
  Z.of_nat (length bottomBuffer) ≤ MaxLines s →
  0 ≤ lineCount → lineCount + Z.of_nat (length pending) < 2 ^ 63 →
  bottomLoop s pending bottomBuffer lineCount
  = Some (lastn (Z.to_nat (MaxLines s)) (bottomBuffer ++ pending),
          lineCount + Z.of_nat (length pending)).
Proof.
  intros HM1 HM. revert bottomBuffer lineCount.
  induction pending as [|line pending IH]; intros buf lc Hbuf Hlc Hsum; simpl.
  - rewrite app_nil_r. unfold lastn.
    replace (length buf - Z.to_nat (MaxLines s))%nat with 0%nat by lia.
    rewrite drop_0. do 2 f_equal. lia.
  - simpl in Hsum.
    assert (int_add lc 1 = lc + 1) as ->
      by (apply int_add_id; unfold is_int; lia).
    destruct (Z.ltb_spec (Z.of_nat (length buf)) (MaxLines s)) as [Hlt|Hge].
    + rewrite IH by (rewrite ?length_app; simpl; lia).
      rewrite <-app_assoc. simpl. do 2 f_equal. lia.
    + destruct buf as [|x tl]; [simpl in *; lia|].
      rewrite shiftIn_full; [|done|lia].
      rewrite IH by (rewrite ?length_app; simpl in *; lia).
      rewrite <-app_assoc. simpl.
      rewrite lastn_cons_ge by (rewrite length_app; simpl in *; lia).
      do 2 f_equal. lia.
Qed.

(** The final loop parses the buffer from [startIdx] on. *)
Lemma parseFrom_spec s bottomBuffer i n modelines :
  0 ≤ i → Z.of_nat (length bottomBuffer) < 2 ^ 63 →
  n = (length bottomBuffer - Z.to_nat i)%nat →
  parseFrom s bottomBuffer i n modelines
  = Returns (foldl (collect s) modelines (drop (Z.to_nat i) bottomBuffer)).
Proof.
  intros Hi Hlen. revert i modelines Hi.
  induction n as [|n IH]; intros i ms Hi Hn; simpl.
  - by rewrite drop_ge by lia.
  - rewrite (proj2 (Z.ltb_ge _ _)) by lia.
    destruct (lookup_lt_is_Some_2 bottomBuffer (Z.to_nat i)) as [line Hline];
      [lia|].
    rewrite Hline.
    assert (int_add i 1 = i + 1) as ->
      by (apply int_add_id; unfold is_int; lia).
    rewrite IH by lia.
    rewrite (drop_S _ _ _ Hline). simpl.
    by replace (Z.to_nat (i + 1)) with (S (Z.to_nat i)) by lia.
Qed.

(** ** Which lines [Scan] parses *)

Lemma parsedAt_seq s lines a b :
  (a + b ≤ length lines)%nat →
  parsedAt s lines (seq a b) = omap (parsed s) (take b (drop a lines)).
Proof.
  unfold parsedAt. revert a. induction b as [|b IH]; intros a Hab; simpl.
  - done.
  - destruct (lookup_lt_is_Some_2 lines a) as [l Hl]; [lia|].
    rewrite (drop_S _ _ _ Hl). simpl. rewrite Hl. simpl.
    rewrite IH by lia. done.
Qed.

Lemma parsedAt_cons s lines i idxs :
  parsedAt s lines (i :: idxs)
  = option_list (lines !! i ≫= parsed s) ++ parsedAt s lines idxs.
Proof. unfold parsedAt. simpl. by destruct (lines !! i ≫= parsed s). Qed.

Lemma parsedAt_app s lines idxs1 idxs2 :
  parsedAt s lines (idxs1 ++ idxs2)
  = parsedAt s lines idxs1 ++ parsedAt s lines idxs2.
Proof. apply omap_app. Qed.

Lemma seq_sorted a b : StronglySorted lt (seq a b).
Proof.
  revert a. induction b as [|b IH]; intros a; simpl; constructor; [apply IH|].
  apply Forall_forall. intros x Hx%elem_of_seq. lia.
Qed.

Lemma windowPositions_sorted s n : StronglySorted lt (windowPositions s n).
Proof.
  unfold windowPositions.
  destruct (ScanTop s), (ScanBottom s); try apply seq_sorted; [|constructor].
  case_decide; [apply seq_sorted|].
  apply StronglySorted_app_2; [|apply seq_sorted..].
  intros x1 x2 H1%elem_of_seq H2%elem_of_seq. lia.
Qed.

Lemma windowPositions_bound s n : Forall (λ i, i < n)%nat (windowPositions s n).
Proof.
  unfold windowPositions.
  destruct (ScanTop s), (ScanBottom s); [| | |constructor].
  - case_decide; rewrite ?Forall_app, !Forall_forall;
      repeat split; intros x Hx%elem_of_seq; lia.
  - apply Forall_forall. intros x Hx%elem_of_seq. lia.
  - apply Forall_forall. intros x Hx%elem_of_seq. lia.
Qed.

Lemma scannerErr_NewReader lines atEnd :
  scannerErr (NewReader lines) atEnd = None.
Proof. by destruct atEnd. Qed.

Lemma lastn_drop {A} m k (l : list A) :
  (m + k ≤ length l)%nat → lastn m (drop k l) = lastn m l.
Proof.
  intros Hm. unfold lastn. rewrite length_drop, drop_drop. f_equal. lia.
Qed.

Lemma length_lastn {A} m (l : list A) : length (lastn m l) = (m `min` length l)%nat.
Proof. unfold lastn. rewrite length_drop. lia. Qed.

Lemma parsedAt_lastn s lines m :
  parsedAt s lines (seq (length lines - m) (m `min` length lines))
  = omap (parsed s) (lastn m lines).
Proof.
  rewrite parsedAt_seq by lia. unfold lastn. f_equal.
  apply take_ge. rewrite length_drop. lia.
Qed.

Lemma parsedAt_firstn s lines m :
  parsedAt s lines (seq 0 (m `min` length lines))
  = omap (parsed s) (take m lines).
Proof.
  rewrite parsedAt_seq by lia. rewrite drop_0. f_equal.
  destruct (decide (m ≤ length lines)%nat).
  - by rewrite Nat.min_l by lia.
  - rewrite Nat.min_r by lia. by rewrite !take_ge by lia.
Qed.

(** [Scan] on a source that does not fail, with a positive window size:
    it returns the modelines of the lines at [windowPositions], in that
    order. *)
Lemma Scan_window s lines :
  1 ≤ MaxLines s < 2 ^ 62 → Z.of_nat (length lines) < 2 ^ 63 →
  Scan s (NewReader lines)
  = Returns (parsedAt s lines (windowPositions s (length lines))).
Proof.
  intros HM Hn. unfold Scan, windowPositions.
  change (rd_lines (NewReader lines)) with lines.
  change (rd_err (NewReader lines)) with (@None error).
  set (m := Z.to_nat (MaxLines s)). set (n := length lines).
  assert (HMm : MaxLines s = Z.of_nat m) by (subst m; lia).
  assert (HMint : is_int (MaxLines s)) by (unfold is_int; lia).
  assert (H2M : int_mul 2 (MaxLines s) = 2 * MaxLines s)
    by (apply int_mul_id; unfold is_int; lia).
  destruct (ScanTop s) eqn:Htop, (ScanBottom s) eqn:Hbot; cbn [negb andb].
  - (* both windows *)
    rewrite (proj2 (Z.ltb_ge _ _)) by lia.
    rewrite topLoop_spec by (done || unfold is_int; lia).
    rewrite Z.sub_0_r. fold m. cbn iota beta.
    rewrite scannerErr_NewReader.
    rewrite bottomLoop_spec; [|lia|done|simpl; lia|lia|rewrite length_drop; lia].
    rewrite length_drop. fold n. cbn [rd_err NewReader app].
    rewrite foldl_collect. cbn [app]. rewrite H2M.
    fold m.
    set (lc := 0 + Z.of_nat (n `min` m) + Z.of_nat (n - S m)).
    assert (Hlc : lc = Z.of_nat (n `min` m) + Z.of_nat (n - S m)) by done.
    clearbody lc.
    destruct (Z.leb_spec lc (MaxLines s)) as [Hle|Hgt].
    + (* the source has at most MaxLines + 1 lines *)
      rewrite decide_True by lia. by rewrite parsedAt_firstn.
    + destruct (Z.ltb_spec lc (2 * MaxLines s)) as [Hlt|Hge].
      * (* between MaxLines + 2 and 2 * MaxLines lines *)
        rewrite (int_sub_id (2 * MaxLines s)) by (unfold is_int; lia).
        rewrite int_sub_id by (unfold is_int; lia).
        rewrite parseFrom_spec;
          [|lia|rewrite length_lastn, length_drop; lia|lia].
        rewrite drop_ge by (rewrite length_lastn, length_drop; lia).
        rewrite decide_True by lia. rewrite parsedAt_firstn.
        rewrite foldl_collect. by rewrite app_nil_r.
      * (* more than 2 * MaxLines lines *)
        rewrite parseFrom_spec;
          [|lia|rewrite length_lastn, length_drop; lia|lia].
        rewrite decide_False by lia. rewrite parsedAt_app.
        rewrite foldl_collect. cbn [Z.to_nat]. rewrite drop_0.
        rewrite lastn_drop by (fold n; lia).
        f_equal. f_equal.
        -- rewrite parsedAt_seq by (fold n; lia). by rewrite drop_0.
        -- rewrite <-parsedAt_lastn. fold n. do 2 f_equal. lia.
  - (* top window only *)
    rewrite topLoop_spec by (done || unfold is_int; lia).
    rewrite Z.sub_0_r. fold m. rewrite scannerErr_NewReader.
    rewrite foldl_collect. cbn [app]. by rewrite parsedAt_firstn.
  - (* bottom window only *)
    rewrite (proj2 (Z.ltb_ge _ _)) by lia.
    rewrite bottomLoop_spec; [|lia|done|simpl; lia|lia|lia].
    cbn [rd_err NewReader app].
    rewrite parseFrom_spec;
      [|lia|rewrite length_lastn; lia|lia].
    rewrite foldl_collect. cbn [app Z.to_nat]. rewrite drop_0.
    by rewrite parsedAt_lastn.
  - done.
Qed.

(** The same for any reader: a reader that ends with a read error makes
    [Scan] fail, unless the top-only scan stops before reaching the error. *)
Lemma Scan_window_reader s r :
  1 ≤ MaxLines s < 2 ^ 62 → Z.of_nat (length (rd_lines r)) < 2 ^ 63 →
  Scan s r
  = Returns (parsedAt s (rd_lines r) (windowPositions s (length (rd_lines r))))
  ∨ ∃ err, rd_err r = Some err ∧ Scan s r = Fails err.
Proof.
  intros HM Hn. destruct r as [lines [err|]];
    [|left; by apply (Scan_window s lines)].
  simpl in Hn.
  assert (HMint : is_int (MaxLines s)) by (unfold is_int; lia).
  unfold Scan, windowPositions. cbn [rd_lines rd_err].
  destruct (ScanTop s) eqn:Htop, (ScanBottom s) eqn:Hbot; cbn [negb andb].
  - right. exists err. split; [done|].
    rewrite (proj2 (Z.ltb_ge _ _)) by lia.
    rewrite topLoop_spec by (done || unfold is_int; lia).
    cbn iota beta. unfold scannerErr. cbn [rd_err].
    case_bool_decide; [done|].
    by rewrite bottomLoop_spec;
      [|lia|done|simpl; lia|lia|rewrite length_drop; lia].
  - rewrite topLoop_spec by (done || unfold is_int; lia).
    unfold scannerErr. cbn [rd_err].
    case_bool_decide; [right; by exists err|left].
    rewrite foldl_collect, Z.sub_0_r. cbn [app]. by rewrite parsedAt_firstn.
  - right. exists err. split; [done|].
    rewrite (proj2 (Z.ltb_ge _ _)) by lia.
    by rewrite bottomLoop_spec; [|lia|done|simpl; lia|lia|lia].
  - by left.
Qed.

(** With a window size that is not positive, [Scan] parses no line at all:
    it returns no result, fails on a read error, or panics on the buffer. *)
Lemma Scan_nonpositive s r :
  MaxLines s ≤ 0 →
  Scan s r = Returns []
  ∨ (∃ err, rd_err r = Some err ∧ Scan s r = Fails err)
  ∨ Scan s r = Panics.
Proof.
  intros HM. destruct r as [lines err]. unfold Scan. cbn [rd_lines rd_err].
  assert (Hlt : (0 <? MaxLines s) = false) by (apply Z.ltb_ge; lia).
  destruct (ScanTop s) eqn:Htop, (ScanBottom s) eqn:Hbot; cbn [negb andb];
    [| | |by left].
  - (* both windows *)
    destruct (Z.ltb_spec (MaxLines s) 0) as [Hneg|Hzero]; [by right; right|].
    assert (Hle : (0 <=? MaxLines s) = true) by (apply Z.leb_le; lia).
    destruct lines as [|l1 [|l2 lines]], err as [e|];
      repeat (progress (cbn [topLoop scannerErr rd_err bottomLoop length
                             Z.of_nat shiftIn];
                        change (Z.of_nat 0) with 0; rewrite ?Hlt, ?Hle));
      first [by left | by right; right | right; left; by exists e].
  - (* top window only *)
    destruct lines as [|l1 lines], err as [e|];
      repeat (progress (cbn [topLoop scannerErr rd_err]; rewrite ?Hlt));
      first [by left | right; left; by exists e].
  - (* bottom window only *)
    destruct (Z.ltb_spec (MaxLines s) 0) as [Hneg|Hzero]; [by right; right|].
    destruct lines as [|l1 lines], err as [e|];
      repeat (progress (cbn [bottomLoop length Z.of_nat shiftIn parseFrom
                             Z.sub Z.to_nat Z.opp Z.add];
                        change (Z.of_nat 0) with 0; rewrite ?Hlt));
      first [by left | by right; right | right; left; by exists e].
Qed.

Lemma windowPositions_nonpositive s n :
  MaxLines s ≤ 0 → windowPositions s n = [].
Proof.
  intros HM. unfold windowPositions.
  replace (Z.to_nat (MaxLines s)) with 0%nat by lia.
  destruct (ScanTop s), (ScanBottom s); try done. by case_decide.
Qed.

Lemma parsedAt_none s lines idxs :
  Forall (λ i, lines !! i ≫= parsed s = None) idxs →
  parsedAt s lines idxs = [].
Proof.
  unfold parsedAt. induction 1 as [|i idxs Hi _ IH]; simpl; [done|].
  by rewrite Hi.
Qed.

(** ** The inner loops of [findProgram] *)

Lemma scanned_skip p s : scanned p s ++ skip p s = s.
Proof. induction s as [|c s IH]; simpl; [done|]. destruct (p c); simpl; by f_equal. Qed.

Lemma scanned_all p s : Forall (λ c, p c = true) (scanned p s).
Proof.
  induction s as [|c s IH]; simpl; [constructor|].
  destruct (p c) eqn:Hc; by constructor.
Qed.

Lemma skip_app p a b :
  Forall (λ c, p c = true) a → stopsAt p b → skip p (a ++ b) = b.
Proof.
  intros Ha Hb. induction Ha as [|c a Hc _ IH]; simpl.
  - destruct b as [|x b]; simpl in *; [done|]. by rewrite Hb.
  - by rewrite Hc.
Qed.

Lemma scanned_app p a b :
  Forall (λ c, p c = true) a → stopsAt p b → scanned p (a ++ b) = a.
Proof.
  intros Ha Hb. induction Ha as [|c a Hc _ IH]; simpl.
  - destruct b as [|x b]; simpl in *; [done|]. by rewrite Hb.
  - rewrite Hc. by f_equal.
Qed.

Lemma isWordChar_not_blank c : isWordChar c = true → isBlank c = false.
Proof.
  unfold isBlank. intros Hc.
  destruct (bool_decide_reflect (c = " "%char)) as [->|_]; [done|].
  destruct (bool_decide_reflect (c = "009"%char)) as [->|_]; done.
Qed.

(** ** Program detection *)

Lemma programMatch_cons c tl pre ws ident rest :
  programMatch tl pre ws ident rest →
  programMatch (c :: tl) (c :: pre) ws ident rest.
Proof. intros (-> & ? & ? & ? & ?). by repeat split. Qed.

Lemma programMatch_inv c tl pre ws ident rest :
  programMatch (c :: tl) pre ws ident rest →
  (pre = [] ∧ isBlank c = true
   ∧ ∃ ws', ws = c :: ws' ∧ tl = ws' ++ ident ++ ":"%char :: rest)
  ∨ (∃ pre', pre = c :: pre' ∧ programMatch tl pre' ws ident rest).
Proof.
  intros (Hl & Hws & Hb & Hi & Hw). destruct pre as [|c' pre'].
  - left. destruct ws as [|c' ws']; [done|]. simpl in Hl.
    injection Hl as <- ->. split; [done|]. split; [by inversion Hb|].
    by exists ws'.
  - right. simpl in Hl. injection Hl as <- ->. exists pre'.
    by repeat split.
Qed.

(** The test made at a blank [line[i]] succeeds exactly when a match starts
    there. *)
Lemma match_here tl ws' ident rest :
  Forall (λ c, isBlank c = true) ws' →
  ident ≠ [] → Forall (λ c, isWordChar c = true) ident →
  tl = ws' ++ ident ++ ":"%char :: rest →
  skip isBlank tl = ident ++ ":"%char :: rest
  ∧ scanned isWordChar (skip isBlank tl) = ident
  ∧ skip isWordChar (skip isBlank tl) = ":"%char :: rest.
Proof.
  intros Hb Hi Hw ->.
  assert (skip isBlank (ws' ++ ident ++ ":"%char :: rest)
          = ident ++ ":"%char :: rest) as ->.
  { apply skip_app; [done|]. destruct Hw as [|x ident Hx _]; [done|].
    simpl. by apply isWordChar_not_blank. }
  split; [done|]. split.
  - by apply scanned_app.
  - by apply skip_app.
Qed.

Lemma findProgram_spec line :
  match findProgram line with
  | Ok (program, rest) => ∃ pre ws, leftmostMatch line pre ws program rest
  | Err e =>
      e = ErrNoModeline
      ∧ ∀ pre ws ident rest, ¬ programMatch line pre ws ident rest
  end.
Proof.
  induction line as [|c tl IH].
  - simpl. split; [done|]. intros pre ws ident rest (Hl & _).
    by destruct pre, ws, ident.
  - assert (Hrec :
      (∀ ws ident rest, ¬ programMatch (c :: tl) [] ws ident rest) →
      match findProgram tl with
      | Ok (program, rest) =>
          ∃ pre ws, leftmostMatch (c :: tl) pre ws program rest
      | Err e =>
          e = ErrNoModeline
          ∧ ∀ pre ws ident rest, ¬ programMatch (c :: tl) pre ws ident rest
      end).
    { intros Hno. destruct (findProgram tl) as [[program rest]|e].
      - destruct IH as (pre & ws & Hm & Hleft).
        exists (c :: pre), ws. split; [by apply programMatch_cons|].
        intros pre' ws' ident' rest' Hm'.
        destruct (programMatch_inv _ _ _ _ _ _ Hm')
          as [(-> & _)|(pre'' & -> & Hm'')]; [by destruct (Hno _ _ _ Hm')|].
        simpl. apply le_n_S. by eapply Hleft.
      - destruct IH as [-> IH]. split; [done|].
        intros pre ws ident rest Hm'.
        destruct (programMatch_inv _ _ _ _ _ _ Hm')
          as [(-> & _)|(pre'' & -> & Hm'')]; [by destruct (Hno _ _ _ Hm')|].
        by eapply IH. }
    assert (Hhere : ∀ ws ident rest,
      programMatch (c :: tl) [] ws ident rest →
      skip isBlank tl = ident ++ ":"%char :: rest
      ∧ scanned isWordChar (skip isBlank tl) = ident
      ∧ skip isWordChar (skip isBlank tl) = ":"%char :: rest).
    { intros ws ident rest Hm. pose proof Hm as (_ & _ & Hb & Hi & Hw).
      destruct (programMatch_inv _ _ _ _ _ _ Hm)
        as [(_ & _ & ws' & -> & Htl)|(? & ? & _)]; [|done].
      apply (match_here tl ws'); [by inversion Hb|done..]. }
    simpl. destruct (isBlank c) eqn:Hc.
    2:{ apply Hrec. intros ws ident rest Hm.
        destruct (programMatch_inv _ _ _ _ _ _ Hm)
          as [(_ & Hc' & _)|(? & ? & _)]; congruence. }
    destruct (skip isBlank tl) as [|x atStart] eqn:Hskip.
    { apply Hrec. intros ws ident rest Hm.
      destruct (Hhere _ _ _ Hm) as (Heq & _). by destruct ident. }
    destruct (skip isWordChar (x :: atStart)) as [|c' rest] eqn:Hafter.
    { apply Hrec. intros ws ident rest Hm.
      by destruct (Hhere _ _ _ Hm) as (_ & _ & ?). }
    destruct (bool_decide_reflect (c' = ":"%char)) as [->|Hcolon].
    2:{ apply Hrec. intros ws ident rest' Hm.
        destruct (Hhere _ _ _ Hm) as (_ & _ & ?). congruence. }
    destruct (bool_decide_reflect
                (0 < length (scanned isWordChar (x :: atStart)))%nat)
      as [Hlen|Hlen]; cbn [andb].
    2:{ apply Hrec. intros ws ident rest' Hm.
        pose proof Hm as (_ & _ & _ & Hi & _).
        destruct (Hhere _ _ _ Hm) as (_ & Hsc & _).
        rewrite Hsc in Hlen. destruct ident; [done|]. simpl in Hlen. lia. }
    exists [], (c :: scanned isBlank tl). split; [|simpl; lia].
    repeat split.
    + cbn [app]. f_equal. rewrite <-(scanned_skip isBlank tl) at 1.
      f_equal. rewrite Hskip, <-Hafter. symmetry. apply scanned_skip.
    + done.
    + constructor; [done|apply scanned_all].
    + intros Hnil. rewrite Hnil in Hlen. simpl in Hlen. lia.
    + apply scanned_all.
Qed.

Lemma leftmostMatch_unique line pre ws ident rest pre' ws' ident' rest' :
  leftmostMatch line pre ws ident rest →
  leftmostMatch line pre' ws' ident' rest' →
  pre = pre' ∧ ws = ws' ∧ ident = ident' ∧ rest = rest'.
Proof.
  intros [Hm Hleft] [Hm' Hleft'].
  pose proof (Hleft _ _ _ _ Hm') as Hle. pose proof (Hleft' _ _ _ _ Hm) as Hle'.
  destruct Hm as (Hl & Hws & Hb & Hi & Hw).
  destruct Hm' as (Hl' & Hws' & Hb' & Hi' & Hw').
  rewrite Hl in Hl'. apply app_inj_1 in Hl' as [<- Heq]; [|lia].
  split; [done|].
  assert (Hstop : ∀ i r, i ≠ [] → Forall (λ c, isWordChar c = true) i →
                         stopsAt isBlank (i ++ ":"%char :: r)).
  { intros i r Hne Hall. destruct Hall as [|x i Hx _]; [done|].
    simpl. by apply isWordChar_not_blank. }
  assert (ws = ws') as <-.
  { rewrite <-(scanned_app isBlank ws (ident ++ ":"%char :: rest)) by auto.
    rewrite Heq. apply scanned_app; auto. }
  split; [done|]. apply app_inv_head in Heq.
  assert (ident = ident') as <-.
  { rewrite <-(scanned_app isWordChar ident (":"%char :: rest)) by done.
    rewrite Heq. by apply scanned_app. }
  split; [done|]. apply app_inv_head in Heq. congruence.
Qed.

(** ** The [strings] functions *)

Lemma HasPrefix_spec s p : strings.HasPrefix s p = true ↔ p `prefix_of` s.
Proof.
  unfold strings.HasPrefix. rewrite andb_true_iff, !bool_decide_eq_true. split.
  - intros [_ Ht]. exists (drop (length p) s).
    rewrite <-Ht at 1. by rewrite take_drop.
  - intros [k ->]. split; [rewrite length_app; lia|].
    by rewrite take_app_length.
Qed.

Lemma HasSuffix_spec s p : strings.HasSuffix s p = true ↔ p `suffix_of` s.
Proof.
  unfold strings.HasSuffix. rewrite andb_true_iff, !bool_decide_eq_true. split.
  - intros [_ Ht]. exists (take (length s - length p) s).
    rewrite <-Ht at 2. by rewrite take_drop.
  - intros [k ->]. split; [rewrite length_app; lia|].
    rewrite length_app.
    replace (length k + length p - length p)%nat with (length k) by lia.
    by rewrite drop_app_length.
Qed.

Lemma inCutset_blanks c : strings.inCutset blanks c = isBlank c.
Proof.
  unfold strings.inCutset, isBlank, blanks.
  destruct (bool_decide_reflect (c = " "%char)) as [->|H1]; [done|].
  destruct (bool_decide_reflect (c = "009"%char)) as [->|H2]; [done|].
  apply bool_decide_eq_false.
  by intros [?|[?|?%elem_of_nil]%elem_of_cons]%elem_of_cons.
Qed.

Lemma TrimLeft_blanks s : strings.TrimLeft s blanks = skip isBlank s.
Proof.
  induction s as [|c s IH]; simpl; [done|].
  rewrite inCutset_blanks. by destruct (isBlank c).
Qed.

Lemma TrimRight_all s cutset :
  Forall (λ c, strings.inCutset cutset c = true) s →
  strings.TrimRight s cutset = [].
Proof. induction 1 as [|c s Hc _ IH]; simpl; [done|]. by rewrite IH, Hc. Qed.

Lemma TrimRight_app s x ws cutset :
  strings.inCutset cutset x = false →
  Forall (λ c, strings.inCutset cutset c = true) ws →
  strings.TrimRight (s ++ x :: ws) cutset = s ++ [x].
Proof.
  intros Hx Hws. induction s as [|c s IH]; simpl.
  - by rewrite TrimRight_all, Hx.
  - rewrite IH. by destruct s.
Qed.

Lemma TrimRight_split s cutset :
  ∃ ws, s = strings.TrimRight s cutset ++ ws
        ∧ Forall (λ c, strings.inCutset cutset c = true) ws.
Proof.
  induction s as [|c s (ws & Hs & Hws)]; simpl; [by exists []|].
  destruct (strings.TrimRight s cutset) as [|t T] eqn:HT.
  - destruct (strings.inCutset cutset c) eqn:Hc.
    + exists (c :: s). split; [done|]. simpl in Hs. subst s. by constructor.
    + exists s. split; [done|]. simpl in Hs. by subst s.
  - exists ws. split; [|done]. simpl. by f_equal.
Qed.

Lemma Forall_inCutset_blanks ws :
  Forall (λ c, strings.inCutset blanks c = true) ws
  ↔ Forall (λ c, isBlank c = true) ws.
Proof.
  split; intros H; (eapply Forall_impl; [exact H|]); intros c; simpl;
    by rewrite inCutset_blanks.
Qed.

(** "After trimming trailing spaces and tabs, the text ends with a colon". *)
Lemma ends_with_colon r :
  strings.HasSuffix (strings.TrimRight r blanks) (str ":") = true
  ↔ ∃ t ws, r = t ++ ":"%char :: ws ∧ Forall (λ c, isBlank c = true) ws.
Proof.
  rewrite HasSuffix_spec. split.
  - intros [t Ht]. destruct (TrimRight_split r blanks) as (ws & Hr & Hws).
    exists t, ws. split.
    + rewrite Hr at 1. rewrite Ht. by rewrite <-app_assoc.
    + by apply Forall_inCutset_blanks.
  - intros (t & ws & -> & Hws). exists t.
    apply TrimRight_app; [done|]. by apply Forall_inCutset_blanks.
Qed.

Lemma HasPrefix_single_cons c x s :
  strings.HasPrefix (x :: s) [c] = bool_decide (x = c).
Proof.
  unfold strings.HasPrefix. simpl. rewrite take_0.
  apply bool_decide_ext. split; congruence.
Qed.

Lemma Index_absent c s : c ∉ s → strings.Index s [c] = -1.
Proof.
  induction s as [|x s IH]; intros Hc; [done|].
  cbn [strings.Index]. rewrite HasPrefix_single_cons.
  rewrite bool_decide_eq_false_2 by set_solver.
  rewrite IH by set_solver. done.
Qed.

Lemma Index_first c a b :
  c ∉ a → strings.Index (a ++ c :: b) [c] = Z.of_nat (length a).
Proof.
  induction a as [|x a IH]; intros Hc; cbn [strings.Index app].
  - rewrite HasPrefix_single_cons. by rewrite bool_decide_eq_true_2.
  - rewrite HasPrefix_single_cons.
    rewrite bool_decide_eq_false_2 by set_solver.
    rewrite IH by set_solver.
    destruct (Z.of_nat (length a)) as [|q|q] eqn:Hq; [| |lia];
      simpl length; lia.
Qed.

Lemma first_occurrence (c : ascii) (s : gostring) :
  c ∉ s ∨ ∃ a b, s = a ++ c :: b ∧ c ∉ a.
Proof.
  destruct (decide (c ∈ s)) as [Hin|]; [right|by left].
  destruct (list_elem_of_split_l _ _ Hin) as (a & b & -> & Ha). eauto.
Qed.

(** ** Option decoding *)

Lemma Cut_found name value :
  "="%char ∉ name →
  strings.Cut (name ++ "="%char :: value) (str "=") = (name, value, true).
Proof.
  intros Hname. unfold strings.Cut. change (str "=") with ["="%char].
  rewrite Index_first by done.
  rewrite (proj2 (Z.leb_le _ _)) by lia.
  rewrite Nat2Z.id, take_app_length. simpl length.
  replace (length name + 1)%nat with (length (name ++ ["="%char]))
    by (rewrite length_app; simpl; lia).
  rewrite (cons_middle _ name value), app_assoc. by rewrite drop_app_length.
Qed.

Lemma Cut_not_found token :
  "="%char ∉ token → strings.Cut token (str "=") = (token, [], false).
Proof.
  intros Htoken. unfold strings.Cut. change (str "=") with ["="%char].
  by rewrite Index_absent.
Qed.

Lemma negated_test token :
  strings.HasPrefix token (str "no") && bool_decide (2 < length token)%nat
  = true
  ↔ ∃ name, name ≠ [] ∧ token = str "no" ++ name.
Proof.
  rewrite andb_true_iff, HasPrefix_spec, bool_decide_eq_true. split.
  - intros [[name ->] Hlen]. exists name. split; [|done].
    intros ->. simpl in Hlen. lia.
  - intros (name & Hne & ->). split; [by exists name|].
    destruct name; [done|]. simpl. lia.
Qed.

Lemma decodes_parseOption token name value :
  decodes token name value → parseOption token = (name, value).
Proof.
  unfold parseOption. destruct 1 as [name value Hn|name Hn Hne|token Hn Hno].
  - by rewrite Cut_found.
  - rewrite Cut_not_found.
    2:{ intros [H|H]%elem_of_app; [|done].
        by repeat (apply elem_of_cons in H as [?|H]; [done|]);
           apply elem_of_nil in H. }
    rewrite (proj2 (negated_test _)) by eauto. done.
  - rewrite Cut_not_found by done.
    destruct (strings.HasPrefix token (str "no")
              && bool_decide (2 < length token)%nat) eqn:Htest; [|done].
    apply negated_test in Htest as (name & Hne & ->).
    by destruct (Hno name Hne).
Qed.

Lemma parseOption_decodes token :
  decodes token (parseOption token).1 (parseOption token).2.
Proof.
  destruct (first_occurrence "="%char token) as [Hno|(a & b & -> & Ha)].
  - unfold parseOption. rewrite Cut_not_found by done.
    destruct (strings.HasPrefix token (str "no")
              && bool_decide (2 < length token)%nat) eqn:Htest.
    + apply negated_test in Htest as (name & Hne & ->). simpl.
      apply decodes_negated; [|done].
      intros Hin. apply Hno. apply elem_of_app. by right.
    + simpl. apply decodes_plain; [done|].
      intros name Hne ->.
      assert (strings.HasPrefix (str "no" ++ name) (str "no")
              && bool_decide (2 < length (str "no" ++ name))%nat = true)
        by (apply negated_test; eauto).
      congruence.
  - unfold parseOption. rewrite Cut_found by done. simpl.
    by apply decodes_assign.
Qed.

Lemma parseOption_iff token name value :
  parseOption token = (name, value) ↔ decodes token name value.
Proof.
  split; [|apply decodes_parseOption].
  intros Heq. pose proof (parseOption_decodes token) as H.
  by rewrite Heq in H.
Qed.

Lemma addOption_lookup options token k :
  addOption options token !! k
  = if decide (k ≠ [] ∧ (parseOption token).1 = k)
    then Some (parseOption token).2
    else options !! k.
Proof.
  unfold addOption. case_bool_decide as Htok.
  - subst token. rewrite decide_False; [done|]. intros [Hk Heq]. by apply Hk.
  - destruct (parseOption token) as [key value]. simpl.
    case_bool_decide as Hkey.
    + destruct (decide (key = k)) as [->|Hne].
      * rewrite lookup_insert_eq. by rewrite decide_True.
      * rewrite lookup_insert_ne by done. rewrite decide_False; [done|].
        by intros [_ ?].
    + rewrite decide_False; [done|]. intros [Hk <-]. tauto.
Qed.

Lemma foldl_addOption_lookup tokens k v :
  foldl addOption ∅ tokens !! k = Some v ↔ k ≠ [] ∧ lastDecoding tokens k v.
Proof.
  revert v. induction tokens as [|t tokens IH] using rev_ind; intros v.
  - simpl. rewrite lookup_empty. split; [done|].
    intros (_ & before & token & after & Heq & _). by destruct before.
  - rewrite foldl_app. simpl. rewrite addOption_lookup.
    destruct (decide (k ≠ [] ∧ (parseOption t).1 = k)) as [[Hk Hkey]|Hnot].
    + assert (Ht : decodes t k (parseOption t).2)
        by (rewrite <-Hkey; apply parseOption_decodes).
      split.
      * intros [= <-]. split; [done|]. exists tokens, t, [].
        split; [done|]. split; [done|]. by intros ? ?%elem_of_nil.
      * intros (_ & before & token & after & Heq & Hdec & Hlast).
        destruct after as [|a after _] using rev_ind.
        -- apply app_inj_tail in Heq as [_ <-].
           apply decodes_parseOption in Hdec. by rewrite Hdec.
        -- rewrite app_comm_cons, app_assoc in Heq.
           apply app_inj_tail in Heq as [_ <-].
           destruct (Hlast t) with (v := (parseOption t).2); [|done].
           apply elem_of_app. right. by apply list_elem_of_singleton.
    + assert (Ht : k ≠ [] → ∀ v', ¬ decodes t k v').
      { intros Hk v' Hdec. apply Hnot. split; [done|].
        apply decodes_parseOption in Hdec. by rewrite Hdec. }
      rewrite IH. split.
      * intros (Hk & before & token & after & -> & Hdec & Hlast).
        split; [done|]. exists before, token, (after ++ [t]).
        split; [by rewrite <-app_assoc|]. split; [done|].
        intros t' [Hin|Hin%list_elem_of_singleton]%elem_of_app;
          [by apply Hlast|]. subst t'. by apply Ht.
      * intros (Hk & before & token & after & Heq & Hdec & Hlast).
        split; [done|].
        destruct after as [|a after _] using rev_ind.
        -- apply app_inj_tail in Heq as [_ <-]. by destruct (Ht Hk v).
        -- rewrite app_comm_cons, app_assoc in Heq.
           apply app_inj_tail in Heq as [-> <-].
           exists before, token, after. split; [done|]. split; [done|].
           intros t' Hin. apply Hlast. apply elem_of_app. by left.
Qed.

Lemma parseFirstForm_lookup text k v :
  parseFirstForm text !! k = Some v
  ↔ k ≠ [] ∧ lastDecoding (strings.FieldsFunc text isSeparator) k v.
Proof. apply foldl_addOption_lookup. Qed.

(** ** Form disambiguation *)

Lemma parseSecondForm_ok rest : ∃ options, parseSecondForm rest = Ok options.
Proof. unfold parseSecondForm. case_bool_decide; by eexists. Qed.

Lemma parseSecondForm_bounded region tail :
  ":"%char ∉ region →
  parseSecondForm (region ++ ":"%char :: tail) = Ok (parseFirstForm region).
Proof.
  intros Hregion. unfold parseSecondForm. change (str ":") with [":"%char].
  rewrite Index_first by done.
  rewrite bool_decide_eq_false_2 by lia.
  by rewrite Nat2Z.id, take_app_length.
Qed.

Lemma parseSecondForm_unterminated rest :
  ":"%char ∉ rest → parseSecondForm rest = Ok ∅.
Proof.
  intros Hrest. unfold parseSecondForm. change (str ":") with [":"%char].
  by rewrite Index_absent.
Qed.

(** [parseOptions] on a remainder whose text after the leading blanks is
    [r]. *)
Lemma parseOptions_trimmed rest ws r :
  rest = ws ++ r → Forall (λ c, isBlank c = true) ws → stopsAt isBlank r →
  parseOptions rest
  = if strings.HasPrefix r (str "set ") then parseSecondForm (drop 4 r)
    else if strings.HasPrefix r (str "se ") then parseSecondForm (drop 3 r)
    else if strings.HasSuffix (strings.TrimRight r blanks) (str ":")
    then Err ErrMalformedModeline
    else Ok (parseFirstForm r).
Proof.
  intros -> Hws Hr. unfold parseOptions.
  by rewrite TrimLeft_blanks, skip_app.
Qed.

Lemma parseOptions_errors rest e :
  parseOptions rest = Err e → e = ErrMalformedModeline.
Proof.
  unfold parseOptions.
  repeat match goal with
         | |- context [if ?b then _ else _] => destruct b
         end;
    try (destruct (parseSecondForm_ok
           (drop 4 (strings.TrimLeft rest blanks))) as [o ->]);
    try (destruct (parseSecondForm_ok
           (drop 3 (strings.TrimLeft rest blanks))) as [o ->]);
    congruence.
Qed.

Lemma findProgram_leftmost line pre ws ident rest :
  leftmostMatch line pre ws ident rest → findProgram line = Ok (ident, rest).
Proof.
  intros Hm. pose proof (findProgram_spec line) as Hspec.
  destruct (findProgram line) as [[program rest']|e].
  - destruct Hspec as (pre' & ws' & Hm').
    by destruct (leftmostMatch_unique _ _ _ _ _ _ _ _ _ Hm Hm')
      as (_ & _ & -> & ->).
  - destruct Hspec as [_ Hno]. destruct Hm as [Hm _]. by destruct (Hno _ _ _ _ Hm).
Qed.

Lemma findProgram_no_match line :
  findProgram line = Err ErrNoModeline
  ↔ ¬ ∃ pre ws ident rest, programMatch line pre ws ident rest.
Proof.
  pose proof (findProgram_spec line) as Hspec.
  destruct (findProgram line) as [[program rest]|e].
  - destruct Hspec as (pre & ws & Hm & _). split; [done|].
    intros Hno. destruct Hno. by exists pre, ws, program, rest.
  - destruct Hspec as [-> Hno]. split; [|done].
    intros _ (pre & ws & ident & rest & Hm). by eapply Hno.
Qed.

Lemma ScanString_unfold s line :
  ScanString s line
  = match findProgram line with
    | Ok (program, rest) =>
        match parseOptions rest with
        | Ok options => Ok (mkModeline program options line)
        | Err e => Err e
        end
    | Err e => Err e
    end.
Proof. done. Qed.

Lemma ScanString_NoModeline s line :
  ScanString s line = Err ErrNoModeline ↔ findProgram line = Err ErrNoModeline.
Proof.
  rewrite ScanString_unfold.
  destruct (findProgram line) as [[program rest]|e]; [|split; congruence].
  destruct (parseOptions rest) as [options|e] eqn:Hopt; [done|].
  apply parseOptions_errors in Hopt as ->. done.
Qed.

Lemma parseSecondForm_keys rest options k v :
  parseSecondForm rest = Ok options → options !! k = Some v → k ≠ [].
Proof.
  unfold parseSecondForm. case_bool_decide; intros [= <-].
  - by rewrite lookup_empty.
  - by intros [? _]%parseFirstForm_lookup.
Qed.

Lemma parseOptions_keys rest options k v :
  parseOptions rest = Ok options → options !! k = Some v → k ≠ [].
Proof.
  unfold parseOptions.
  repeat match goal with
         | |- context [if ?b then _ else _] => destruct b
         end; try done; try apply parseSecondForm_keys.
  intros [= <-]. by intros [? _]%parseFirstForm_lookup.
Qed.

Lemma FieldsFunc_go_fields f cur s :
  Forall (λ c, f c = false) cur →
  Forall (λ t, t ≠ [] ∧ Forall (λ c, f c = false) t)
         (strings.FieldsFunc_go f cur s).
Proof.
  revert cur. induction s as [|c s IH]; intros cur Hcur; simpl.
  - case_bool_decide; [constructor|]. by repeat constructor.
  - destruct (f c) eqn:Hc.
    + case_bool_decide; [by apply IH|].
      constructor; [done|]. by apply IH.
    + apply IH. apply Forall_app. split; [done|]. by repeat constructor.
Qed.

Lemma StronglySorted_lt_NoDup (l : list nat) : StronglySorted lt l → NoDup l.
Proof.
  induction 1 as [|x l _ IH Hx]; constructor; [|done].
  intros Hin. rewrite Forall_forall in Hx. specialize (Hx _ Hin). lia.
Qed.

(** ** [Scan] for every window size of type [int] *)

Lemma Scan_top_only_eq s r :
  ScanTop s = true → ScanBottom s = false → is_int (MaxLines s) →
  Scan s r
  = if bool_decide (length (rd_lines r) ≤ Z.to_nat (MaxLines s))%nat
       && bool_decide (is_Some (rd_err r))
    then match rd_err r with Some err => Fails err | None => Returns [] end
    else Returns (omap (parsed s) (take (Z.to_nat (MaxLines s)) (rd_lines r))).
Proof.
  intros Htop Hbot HM. unfold Scan. rewrite Htop, Hbot. cbn [negb andb].
  rewrite topLoop_spec by (done || unfold is_int; lia).
  rewrite Z.sub_0_r, foldl_collect. cbn [app]. unfold scannerErr.
  destruct (rd_err r) as [err|]; case_bool_decide; by cbn [andb].
Qed.

Lemma lastn_short {A} m (l : list A) : (length l ≤ m)%nat → lastn m l = l.
Proof.
  intros Hm. unfold lastn.
  by replace (length l - m)%nat with 0%nat by lia.
Qed.

(** With the bottom window selected, a source that ends in a read error
    never yields modelines. *)
Lemma Scan_error_bottom s r err :
  ScanBottom s = true → rd_err r = Some err →
  Scan s r = Fails err ∨ Scan s r = Panics.
Proof.
  intros Hbot Herr. unfold Scan. rewrite Hbot, Herr. rewrite !andb_false_r.
  destruct (MaxLines s <? 0); [by right|].
  destruct (ScanTop s).
  - destruct (topLoop s (rd_lines r) 0 []) as [[[scanner atEnd] lc] ms].
    unfold scannerErr. rewrite Herr. destruct atEnd; [by left|].
    destruct (bottomLoop s scanner [] lc) as [[buf lc']|]; [by left|by right].
  - destruct (bottomLoop s (rd_lines r) [] 0) as [[buf lc']|];
      [by left|by right].
Qed.

Lemma Scan_window_bottom s lines :
  ScanTop s = false → ScanBottom s = true →
  1 ≤ MaxLines s < 2 ^ 63 → Z.of_nat (length lines) < 2 ^ 63 →
  Scan s (NewReader lines)
  = Returns (omap (parsed s) (lastn (Z.to_nat (MaxLines s)) lines)).
Proof.
  intros Htop Hbot HM Hn. unfold Scan.
  change (rd_lines (NewReader lines)) with lines.
  change (rd_err (NewReader lines)) with (@None error).
  assert (HMint : is_int (MaxLines s)) by (unfold is_int; lia).
  rewrite Htop, Hbot. cbn [negb andb].
  rewrite (proj2 (Z.ltb_ge _ _)) by lia.
  rewrite bottomLoop_spec; [|lia|done|simpl; lia|lia|lia].
  cbn [app].
  rewrite parseFrom_spec; [|lia|rewrite length_lastn; lia|lia].
  rewrite foldl_collect. cbn [app Z.to_nat]. by rewrite drop_0.
Qed.

Lemma int_mul_2_wraps M :
  2 ^ 62 ≤ M < 2 ^ 63 → int_mul 2 M = 2 * M - 2 ^ 64.
Proof.
  intros HM. unfold int_mul, int_wrap.
  replace (2 * M + 2 ^ 63) with ((2 * M - 2 ^ 63) + 1 * 2 ^ 64) by lia.
  rewrite Z_mod_plus_full, Z.mod_small by lia. lia.
Qed.

Lemma Scan_window_huge s lines :
  ScanTop s = true → ScanBottom s = true →
  2 ^ 62 ≤ MaxLines s < 2 ^ 63 → Z.of_nat (length lines) < 2 ^ 63 →
  Scan s (NewReader lines)
  = Returns (parsedAt s lines (scanPositions s (length lines))).
Proof.
  intros Htop Hbot HM Hn. unfold Scan, scanPositions, windowPositions.
  change (rd_lines (NewReader lines)) with lines.
  change (rd_err (NewReader lines)) with (@None error).
  set (m := Z.to_nat (MaxLines s)). set (n := length lines).
  assert (HMint : is_int (MaxLines s)) by (unfold is_int; lia).
  rewrite Htop, Hbot. rewrite (proj2 (Z.leb_le _ _)) by lia. cbn [negb andb].
  rewrite (proj2 (Z.ltb_ge _ _)) by lia.
  rewrite topLoop_spec by (done || unfold is_int; lia).
  rewrite Z.sub_0_r. fold m. cbn iota beta.
  rewrite scannerErr_NewReader.
  rewrite bottomLoop_spec; [|lia|done|simpl; lia|lia|rewrite length_drop; lia].
  rewrite length_drop. fold n. cbn [app].
  rewrite foldl_collect. cbn [app]. rewrite int_mul_2_wraps by done. fold m.
  set (lc := 0 + Z.of_nat (n `min` m) + Z.of_nat (n - S m)).
  assert (Hlc : lc = Z.of_nat (n `min` m) + Z.of_nat (n - S m)) by done.
  clearbody lc.
  destruct (Z.leb_spec lc (MaxLines s)) as [Hle|Hgt].
  - rewrite bool_decide_eq_false_2 by lia.
    rewrite decide_True by lia. by rewrite parsedAt_firstn.
  - rewrite (proj2 (Z.ltb_ge _ _)) by lia.
    rewrite parseFrom_spec; [|lia|rewrite length_lastn, length_drop; lia|lia].
    rewrite bool_decide_eq_true_2 by lia.
    rewrite foldl_collect. cbn [Z.to_nat]. rewrite drop_0.
    rewrite lastn_short by (rewrite length_drop; fold n; lia).
    rewrite parsedAt_app, !parsedAt_seq by (fold n; lia).
    rewrite drop_0. f_equal. f_equal. f_equal.
    symmetry. apply take_ge. rewrite length_drop. fold n. lia.
Qed.

Lemma scanPositions_small s n :
  MaxLines s < 2 ^ 62 → scanPositions s n = windowPositions s n.
Proof.
  intros HM. unfold scanPositions.
  rewrite (proj2 (Z.leb_gt _ _)) by lia. by rewrite andb_false_r.
Qed.

Lemma scanPositions_one_window s n :
  ScanTop s && ScanBottom s = false → scanPositions s n = windowPositions s n.
Proof. intros Hone. unfold scanPositions. by rewrite Hone. Qed.

Lemma scanPositions_sorted s n : StronglySorted lt (scanPositions s n).
Proof.
  unfold scanPositions.
  destruct (_ && bool_decide _); [|apply windowPositions_sorted].
  apply StronglySorted_app_2; [|apply seq_sorted..].
  intros x1 x2 H1%elem_of_seq H2%elem_of_seq. lia.
Qed.

Lemma scanPositions_bound s n : Forall (λ i, i < n)%nat (scanPositions s n).
Proof.
  unfold scanPositions.
  destruct (_ && bool_decide _) eqn:Hcase; [|apply windowPositions_bound].
  apply andb_true_iff in Hcase as [_ Hn%bool_decide_eq_true].
  rewrite Forall_app, !Forall_forall.
  split; intros x Hx%elem_of_seq; lia.
Qed.

(** What the embedding of [Scan] returns, for every window size of type
    [int]: the modelines at [scanPositions]. *)
Lemma Scan_returns_int s r ms :
  is_int (MaxLines s) → Z.of_nat (length (rd_lines r)) < 2 ^ 63 →
  Scan s r = Returns ms →
  ms = parsedAt s (rd_lines r) (scanPositions s (length (rd_lines r))).
Proof.
  intros HM Hn Hret. destruct (decide (MaxLines s < 2 ^ 62)) as [Hsmall|Hhuge].
  { rewrite scanPositions_small by done.
    destruct (decide (1 ≤ MaxLines s)) as [Hpos|Hneg].
    - destruct (Scan_window_reader s r) as [Heq|(err & _ & Heq)];
        [lia|done|congruence|congruence].
    - rewrite windowPositions_nonpositive by lia.
      change (parsedAt s (rd_lines r) []) with (@nil Modeline).
      destruct (Scan_nonpositive s r) as [Heq|[(err & _ & Heq)|Heq]];
        [lia|..]; congruence. }
  assert (HM' : 2 ^ 62 ≤ MaxLines s < 2 ^ 63) by (unfold is_int in HM; lia).
  destruct (ScanTop s) eqn:Htop, (ScanBottom s) eqn:Hbot.
  - destruct r as [lines [err|]].
    + destruct (Scan_error_bottom s (mkReader lines (Some err)) err)
        as [Heq|Heq]; [done|done|congruence|congruence].
    + change (mkReader lines None) with (NewReader lines) in Hret.
      cbn [rd_lines] in *.
      rewrite (Scan_window_huge s lines) in Hret by done. congruence.
  - rewrite scanPositions_one_window by (by rewrite Htop, Hbot).
    rewrite Scan_top_only_eq in Hret by done.
    unfold windowPositions. rewrite Htop, Hbot, parsedAt_firstn.
    destruct (rd_err r) as [err|].
    + destruct (_ && _) in Hret; congruence.
    + rewrite (bool_decide_eq_false_2 (is_Some None)) in Hret
        by (by intros [? ?]).
      rewrite andb_false_r in Hret. congruence.
  - rewrite scanPositions_one_window by (by rewrite Htop, Hbot).
    destruct r as [lines [err|]].
    + destruct (Scan_error_bottom s (mkReader lines (Some err)) err)
        as [Heq|Heq]; [done|done|congruence|congruence].
    + change (mkReader lines None) with (NewReader lines) in Hret.
      cbn [rd_lines] in *.
      rewrite (Scan_window_bottom s lines) in Hret by (done || lia).
      unfold windowPositions. rewrite Htop, Hbot.
      rewrite parsedAt_lastn. congruence.
  - rewrite scanPositions_one_window by (by rewrite Htop, Hbot).
    unfold Scan in Hret. rewrite Htop, Hbot in Hret. cbn [negb andb] in Hret.
    unfold windowPositions. rewrite Htop, Hbot.
    change (parsedAt s (rd_lines r) []) with (@nil Modeline). congruence.
Qed.

(** * The properties of the specification *)

(** C1 (the code departs from the claim): a source of exactly [2 * M] lines
    whose first and last lines are modelines and whose other lines are not,
    scanned with both windows and [MaxLines = M], yields the modeline of the
    first line only; the modeline of the last line is not returned. *)
Theorem Scan_2M_lines_returns_first_only
    (M : Z) (lines : list gostring) (first last : Modeline) :
  1 ≤ M < 2 ^ 62 →
  Z.of_nat (length lines) = 2 * M →
  lines !! 0%nat ≫= parsed (mkScanner true true M) = Some first →
  lines !! (length lines - 1)%nat ≫= parsed (mkScanner true true M)
    = Some last →
  (∀ i, (0 < i < length lines - 1)%nat →
        lines !! i ≫= parsed (mkScanner true true M) = None) →
  Scan (mkScanner true true M) (NewReader lines) = Returns [first].
Proof.
  intros HM Hlen Hfirst _ Hothers.
  rewrite Scan_window by (simpl; lia).
  unfold windowPositions. cbn [ScanTop ScanBottom MaxLines].
  rewrite decide_True by lia.
  replace (Z.to_nat M `min` length lines)%nat with (S (Z.to_nat M - 1)) by lia.
  rewrite <-cons_seq, parsedAt_cons, Hfirst. simpl. do 2 f_equal.
  apply parsedAt_none, Forall_forall. intros i Hi%elem_of_seq.
  apply Hothers. lia.
Qed.

Lemma Scan_2M_lines_returns_first_only_witness :
  Scan (mkScanner true true 2)
       (NewReader [str "# vim: sw=3"; str "line 2"; str "line 3";
                   str "# envctl: provider=gsm"])
  = Returns [ {| Program := str "vim";
                 Options := {[ str "sw" := str "3" ]};
                 RawLine := str "# vim: sw=3" |} ].
Proof.
  apply (Scan_2M_lines_returns_first_only 2 _ _
           {| Program := str "envctl";
              Options := {[ str "provider" := str "gsm" ]};
              RawLine := str "# envctl: provider=gsm" |}).
  - lia.
  - reflexivity.
  - vm_compute. reflexivity.
  - vm_compute. reflexivity.
  - intros [|[|[|i]]] Hi; simpl in Hi; try lia; vm_compute; reflexivity.
Defined.

(** C2: [Scan] never parses a line twice. For every window size of type
    [int] and every number [n] of lines there is a list of line positions,
    depending on the configuration and on [n] only, strictly increasing (so
    pairwise distinct) and within the source, such that whenever [Scan]
    returns modelines for a source of [n] lines, they are the modelines found
    at exactly these positions, in that order. In particular a 3-line source
    with a modeline on line 1 only, scanned with both windows and
    [MaxLines = 5], yields exactly that one modeline. *)
Theorem Scan_parses_no_line_twice (s : Scanner) (n : nat) :
  is_int (MaxLines s) → Z.of_nat n < 2 ^ 63 →
  (∃ idxs,
     StronglySorted lt idxs ∧ NoDup idxs ∧ Forall (λ i, i < n)%nat idxs
     ∧ ∀ r ms, length (rd_lines r) = n → Scan s r = Returns ms →
               ms = parsedAt s (rd_lines r) idxs)
  ∧ (∀ l1 l2 l3 m,
       ScanString defaultScanner l1 = Ok m →
       parsed defaultScanner l2 = None →
       parsed defaultScanner l3 = None →
       Scan defaultScanner (NewReader [l1; l2; l3]) = Returns [m]).
Proof.
  intros HM Hn. split.
  - exists (scanPositions s n). repeat split.
    + apply scanPositions_sorted.
    + apply StronglySorted_lt_NoDup, scanPositions_sorted.
    + apply scanPositions_bound.
    + intros r ms Hlen Hret. subst n. by apply Scan_returns_int.
  - intros l1 l2 l3 m H1 H2 H3.
    rewrite Scan_window by (simpl; lia).
    unfold windowPositions, defaultScanner in *.
    cbn [ScanTop ScanBottom MaxLines length].
    rewrite decide_True by lia.
    change (seq 0 (Z.to_nat 5 `min` 3)) with [0; 1; 2]%nat.
    rewrite !parsedAt_cons. cbn [lookup list_lookup mbind option_bind].
    rewrite H2, H3. unfold parsed. by rewrite H1.
Qed.

Lemma Scan_parses_no_line_twice_witness :
  Scan defaultScanner
       (NewReader [str "# vim: sw=3"; str "line 2"; str "line 3"])
  = Returns [ {| Program := str "vim";
                 Options := {[ str "sw" := str "3" ]};
                 RawLine := str "# vim: sw=3" |} ]
  ∧ ∃ idxs,
      NoDup idxs
      ∧ [ {| Program := str "vim";
             Options := {[ str "sw" := str "3" ]};
             RawLine := str "# vim: sw=3" |} ]
        = parsedAt defaultScanner
            [str "# vim: sw=3"; str "line 2"; str "line 3"] idxs.
Proof.
  destruct (Scan_parses_no_line_twice defaultScanner 3)
    as [(idxs & _ & Hnodup & _ & Hres) Hthree];
    [unfold is_int; simpl; lia|simpl; lia|].
  split.
  - apply Hthree; vm_compute; reflexivity.
  - exists idxs. split; [exact Hnodup|].
    apply (Hres (NewReader [str "# vim: sw=3"; str "line 2"; str "line 3"]));
      [reflexivity|vm_compute; reflexivity].
Defined.

(** C3 (the code departs from the claim when the top window is enabled too):
    for a 7-line source whose only modeline is on line 7 and [MaxLines = 5],
    the bottom-only scan returns that modeline and the top-only scan returns
    nothing, as claimed; but with [ScanBottom] and [ScanTop] both set, the
    scan returns nothing. *)
Theorem Scan_seven_lines (lines : list gostring) (m : Modeline) :
  length lines = 7%nat →
  (∀ i, (i < 6)%nat → lines !! i ≫= parsed defaultScanner = None) →
  lines !! 6%nat ≫= parsed defaultScanner = Some m →
  Scan (mkScanner false true 5) (NewReader lines) = Returns [m]
  ∧ Scan (mkScanner true false 5) (NewReader lines) = Returns []
  ∧ Scan (mkScanner true true 5) (NewReader lines) = Returns [].
Proof.
  intros Hlen Hothers Hlast.
  rewrite !Scan_window by (simpl; lia).
  unfold windowPositions. cbn [ScanTop ScanBottom MaxLines]. rewrite Hlen.
  rewrite decide_True by lia.
  change (seq (7 - Z.to_nat 5) (Z.to_nat 5 `min` 7)) with [2; 3; 4; 5; 6]%nat.
  change (seq 0 (Z.to_nat 5 `min` 7)) with [0; 1; 2; 3; 4]%nat.
  rewrite !parsedAt_cons.
  change (parsed (mkScanner false true 5)) with (parsed defaultScanner).
  change (parsed (mkScanner true false 5)) with (parsed defaultScanner).
  change (parsed (mkScanner true true 5)) with (parsed defaultScanner).
  rewrite (Hothers 0%nat), (Hothers 1%nat), (Hothers 2%nat), (Hothers 3%nat),
    (Hothers 4%nat), (Hothers 5%nat) by lia.
  by rewrite Hlast.
Qed.

Lemma Scan_seven_lines_witness :
  let lines := [str "line 1"; str "line 2"; str "line 3"; str "line 4";
                str "line 5"; str "line 6"; str "# vim: sw=3"] in
  let vim := {| Program := str "vim";
                Options := {[ str "sw" := str "3" ]};
                RawLine := str "# vim: sw=3" |} in
  Scan (mkScanner false true 5) (NewReader lines) = Returns [vim]
  ∧ Scan (mkScanner true false 5) (NewReader lines) = Returns []
  ∧ Scan (mkScanner true true 5) (NewReader lines) = Returns [].
Proof.
  intros lines vim. apply (Scan_seven_lines lines vim).
  - reflexivity.
  - intros [|[|[|[|[|[|i]]]]]] Hi; try lia; vm_compute; reflexivity.
  - vm_compute. reflexivity.
Defined.

(** C4 fails on a token whose decoded name is empty: the option region
    ["=v"] is the single token ["=v"], which decodes to the empty name with
    value ["v"], and the options mapping has no entry for it. *)
Lemma every_token_recorded_fails : ¬ every_token_recorded.
Proof.
  intros Hall.
  assert (Hdec : lastDecoding (strings.FieldsFunc (str "=v") isSeparator)
                              [] (str "v")).
  { exists [], (str "=v"), []. split; [reflexivity|]. split.
    - apply (decodes_assign [] (str "v")). by intros ?%elem_of_nil.
    - by intros t ?%elem_of_nil. }
  apply Hall in Hdec. vm_compute in Hdec. discriminate.
Qed.

(** C4 (amended): the tokens of the option region are non-empty and free of
    separators, and the options mapping binds a name to a value exactly when
    the name is non-empty, some token decodes to it, and the last such token
    decodes to that value; a token decodes as the claim says ([decodes]). *)
Theorem option_decoding (text name value : gostring) :
  Forall (λ t, t ≠ [] ∧ Forall (λ c, isSeparator c = false) t)
         (strings.FieldsFunc text isSeparator)
  ∧ (∀ token n v, parseOption token = (n, v) ↔ decodes token n v)
  ∧ (parseFirstForm text !! name = Some value
     ↔ name ≠ []
       ∧ lastDecoding (strings.FieldsFunc text isSeparator) name value).
Proof.
  split; [by apply FieldsFunc_go_fields|]. split.
  - apply parseOption_iff.
  - apply parseFirstForm_lookup.
Qed.

(** C5: [ScanString] fails with [ErrNoModeline] exactly when the line has no
    blank run followed by an identifier followed by a colon; when it has
    one, it has a leftmost one, and the program is the identifier of the
    leftmost match and the options are decoded from the text after its
    colon. *)
Theorem ScanString_program_detection (s : Scanner) (line : gostring) :
  (ScanString s line = Err ErrNoModeline
   ↔ ¬ ∃ pre ws ident rest, programMatch line pre ws ident rest)
  ∧ ((∃ pre ws ident rest, programMatch line pre ws ident rest) →
     ∃ pre ws ident rest, leftmostMatch line pre ws ident rest)
  ∧ (∀ pre ws ident rest,
       leftmostMatch line pre ws ident rest →
       findProgram line = Ok (ident, rest)
       ∧ ScanString s line
         = match parseOptions rest with
           | Ok options => Ok (mkModeline ident options line)
           | Err e => Err e
           end).
Proof.
  split; [|split].
  - rewrite ScanString_NoModeline. apply findProgram_no_match.
  - intros (pre & ws & ident & rest & Hm).
    pose proof (findProgram_spec line) as Hspec.
    destruct (findProgram line) as [[program rest']|e].
    + destruct Hspec as (pre' & ws' & Hleft). by exists pre', ws', program, rest'.
    + destruct Hspec as [_ Hno]. by destruct (Hno _ _ _ _ Hm).
  - intros pre ws ident rest Hleft.
    apply findProgram_leftmost in Hleft.
    split; [done|]. by rewrite ScanString_unfold, Hleft.
Qed.

Lemma vim_line_match :
  leftmostMatch (str "# vim: sw=3") (str "#") (str " ") (str "vim")
                (str " sw=3").
Proof.
  split.
  - split; [reflexivity|]. split; [discriminate|].
    split; [by repeat constructor|]. split; [discriminate|].
    by repeat constructor.
  - intros pre' ws' ident' rest' (Hl & Hws & Hb & _).
    destruct pre' as [|c pre']; [|simpl; lia].
    destruct ws' as [|c ws']; [done|]. simpl in Hl.
    injection Hl as <- _. by inversion Hb.
Qed.

Lemma ScanString_program_detection_witness :
  findProgram (str "# vim: sw=3") = Ok (str "vim", str " sw=3")
  ∧ ScanString defaultScanner (str "# vim: sw=3")
    = Ok {| Program := str "vim";
            Options := {[ str "sw" := str "3" ]};
            RawLine := str "# vim: sw=3" |}.
Proof.
  destruct (ScanString_program_detection defaultScanner (str "# vim: sw=3"))
    as (_ & _ & H).
  destruct (H _ _ _ _ vim_line_match) as [Hfind Hscan].
  split; [exact Hfind|]. rewrite Hscan. vm_compute. reflexivity.
Defined.

Lemma parseOptions_malformed rest ws r :
  rest = ws ++ r → Forall (λ c, isBlank c = true) ws → stopsAt isBlank r →
  (parseOptions rest = Err ErrMalformedModeline ↔ danglingColon r)
  ∧ (¬ danglingColon r → ∃ options, parseOptions rest = Ok options).
Proof.
  intros Hrest Hws Hr. rewrite (parseOptions_trimmed rest ws r) by done.
  unfold danglingColon. rewrite <-!HasPrefix_spec, <-ends_with_colon.
  destruct (strings.HasPrefix r (str "set ")) eqn:Hset.
  { destruct (parseSecondForm_ok (drop 4 r)) as [o ->].
    split; [split; [done|by intros [? _]]|]. by exists o. }
  destruct (strings.HasPrefix r (str "se ")) eqn:Hse.
  { destruct (parseSecondForm_ok (drop 3 r)) as [o ->].
    split; [split; [done|by intros (_ & ? & _)]|]. by exists o. }
  destruct (strings.HasSuffix (strings.TrimRight r blanks) (str ":"))
    eqn:Hcolon.
  - split; [by split|]. intros Hnot. destruct Hnot. by repeat split.
  - split; [split; [done|by intros (_ & _ & ?)]|]. by eexists.
Qed.

(** C6: [ScanString] fails only with [ErrNoModeline] or
    [ErrMalformedModeline]. Given a program match, with [r] the remainder
    after its leading blanks, it fails with [ErrMalformedModeline] exactly
    when [r] begins with neither ["set "] nor ["se "] and ends, trailing
    blanks apart, with a colon, and it succeeds otherwise. The unterminated
    second form ["# robot: se beep=boop"] succeeds with program ["robot"] and
    no options; ["# robot: beep=boop:"] fails with [ErrMalformedModeline]. *)
Theorem ScanString_failures (s : Scanner) (line : gostring) :
  (∀ e, ScanString s line = Err e →
        e = ErrNoModeline ∨ e = ErrMalformedModeline)
  ∧ (∀ pre ws0 program rest ws r,
       leftmostMatch line pre ws0 program rest →
       rest = ws ++ r → Forall (λ c, isBlank c = true) ws →
       stopsAt isBlank r →
       (ScanString s line = Err ErrMalformedModeline ↔ danglingColon r)
       ∧ (¬ danglingColon r →
          ∃ options, ScanString s line = Ok (mkModeline program options line)))
  ∧ ScanString s (str "# robot: se beep=boop")
    = Ok {| Program := str "robot"; Options := ∅;
            RawLine := str "# robot: se beep=boop" |}
  ∧ ScanString s (str "# robot: beep=boop:") = Err ErrMalformedModeline.
Proof.
  split; [|split; [|split; vm_compute; reflexivity]].
  - intros e. rewrite ScanString_unfold.
    pose proof (findProgram_spec line) as Hspec.
    destruct (findProgram line) as [[program rest]|e'].
    + destruct (parseOptions rest) as [options|e'] eqn:Hopt; [done|].
      apply parseOptions_errors in Hopt as ->. intros [= <-]. by right.
    + destruct Hspec as [-> _]. intros [= <-]. by left.
  - intros pre ws0 program rest ws r Hleft Hrest Hws Hr.
    apply findProgram_leftmost in Hleft.
    rewrite ScanString_unfold, Hleft.
    destruct (parseOptions_malformed rest ws r Hrest Hws Hr) as [Hiff Hok].
    split.
    + rewrite <-Hiff. destruct (parseOptions rest); split; congruence.
    + intros Hnot. destruct (Hok Hnot) as [options ->]. by exists options.
Qed.

Lemma robot_line_match :
  leftmostMatch (str "# robot: beep=boop:") (str "#") (str " ") (str "robot")
                (str " beep=boop:").
Proof.
  split.
  - split; [reflexivity|]. split; [discriminate|].
    split; [by repeat constructor|]. split; [discriminate|].
    by repeat constructor.
  - intros pre' ws' ident' rest' (Hl & Hws & Hb & _).
    destruct pre' as [|c pre']; [|simpl; lia].
    destruct ws' as [|c ws']; [done|]. simpl in Hl.
    injection Hl as <- _. by inversion Hb.
Qed.

Lemma ScanString_failures_witness :
  ScanString defaultScanner (str "# robot: beep=boop:")
  = Err ErrMalformedModeline
  ∧ ∃ options,
      ScanString defaultScanner (str "# vim: sw=3")
      = Ok (mkModeline (str "vim") options (str "# vim: sw=3")).
Proof.
  split.
  - destruct (ScanString_failures defaultScanner (str "# robot: beep=boop:"))
      as (_ & H & _).
    destruct (H _ _ _ _ (str " ") (str "beep=boop:") robot_line_match)
      as [Hiff _]; [reflexivity|by repeat constructor|reflexivity|].
    apply Hiff. split; [|split].
    + intros [k Hk]. discriminate.
    + intros [k Hk]. discriminate.
    + exists (str "beep=boop"), []. split; [reflexivity|constructor].
  - destruct (ScanString_failures defaultScanner (str "# vim: sw=3"))
      as (_ & H & _).
    destruct (H _ _ _ _ (str " ") (str "sw=3") vim_line_match)
      as [_ Hok]; [reflexivity|by repeat constructor|reflexivity|].
    apply Hok. intros (_ & _ & t & ws & Heq & _).
    assert (Hin : ":"%char ∈ str "sw=3")
      by (rewrite Heq; apply elem_of_app; right; by left).
    vm_compute in Hin.
    by repeat (apply elem_of_cons in Hin as [?|Hin]; [done|]);
       apply elem_of_nil in Hin.
Defined.

(** C7: the second form. The line
    ["/* vim:set sw=3 foldmethod=marker: */ random text"] parses to program
    ["vim"] with options [sw = 3] and [foldmethod = marker]; in general, when
    the remainder after the program's colon is blanks, then ["set "] or
    ["se "], then a colon-free region, then a colon, the options are those of
    the region, whatever follows the closing colon. *)
Theorem ScanString_second_form (s : Scanner) :
  ScanString s (str "/* vim:set sw=3 foldmethod=marker: */ random text")
  = Ok {| Program := str "vim";
          Options := {[ str "sw" := str "3";
                        str "foldmethod" := str "marker" ]};
          RawLine := str "/* vim:set sw=3 foldmethod=marker: */ random text" |}
  ∧ ∀ line pre ws0 program ws keyword region tail,
      leftmostMatch line pre ws0 program
                    (ws ++ keyword ++ region ++ ":"%char :: tail) →
      keyword = str "set " ∨ keyword = str "se " →
      Forall (λ c, isBlank c = true) ws →
      ":"%char ∉ region →
      ScanString s line = Ok (mkModeline program (parseFirstForm region) line).
Proof.
  split; [vm_compute; reflexivity|].
  intros line pre ws0 program ws keyword region tail Hleft Hkw Hws Hregion.
  apply findProgram_leftmost in Hleft. rewrite ScanString_unfold, Hleft.
  rewrite (parseOptions_trimmed _ ws (keyword ++ region ++ ":"%char :: tail))
    by (done || by destruct Hkw as [-> | ->]).
  destruct Hkw as [-> | ->].
  - rewrite (proj2 (HasPrefix_spec _ _)) by by eexists.
    change (drop 4 (str "set " ++ region ++ ":"%char :: tail))
      with (region ++ ":"%char :: tail).
    by rewrite parseSecondForm_bounded.
  - destruct (strings.HasPrefix (str "se " ++ region ++ ":"%char :: tail)
                                (str "set ")) eqn:Hset.
    { apply HasPrefix_spec in Hset as [k Hk]. discriminate. }
    rewrite (proj2 (HasPrefix_spec _ _)) by by eexists.
    change (drop 3 (str "se " ++ region ++ ":"%char :: tail))
      with (region ++ ":"%char :: tail).
    by rewrite parseSecondForm_bounded.
Qed.

Lemma second_form_line_match :
  leftmostMatch (str "# vim: se noai cursorline: boolin'")
                (str "#") (str " ") (str "vim")
                (str " " ++ str "se " ++ str "noai cursorline"
                 ++ ":"%char :: str " boolin'").
Proof.
  split.
  - split; [reflexivity|]. split; [discriminate|].
    split; [by repeat constructor|]. split; [discriminate|].
    by repeat constructor.
  - intros pre' ws' ident' rest' (Hl & Hws & Hb & _).
    destruct pre' as [|c pre']; [|simpl; lia].
    destruct ws' as [|c ws']; [done|]. simpl in Hl.
    injection Hl as <- _. by inversion Hb.
Qed.

Lemma ScanString_second_form_witness :
  ScanString defaultScanner (str "# vim: se noai cursorline: boolin'")
  = Ok {| Program := str "vim";
          Options := parseFirstForm (str "noai cursorline");
          RawLine := str "# vim: se noai cursorline: boolin'" |}.
Proof.
  destruct (ScanString_second_form defaultScanner) as [_ H].
  apply (H _ _ _ _ _ _ _ _ second_form_line_match).
  - by right.
  - by repeat constructor.
  - intros Hin. vm_compute in Hin.
    by repeat (apply elem_of_cons in Hin as [?|Hin]; [done|]);
       apply elem_of_nil in Hin.
Defined.

(** C8: a successful parse keeps the input line verbatim in [RawLine], and
    parsing that [RawLine] again gives the same result. *)
Theorem ScanString_rawline_idempotent
    (s s' : Scanner) (line : gostring) (m : Modeline) :
  ScanString s line = Ok m →
  RawLine m = line ∧ ScanString s' (RawLine m) = Ok m.
Proof.
  intros Hm. assert (Hraw : RawLine m = line).
  { rewrite ScanString_unfold in Hm.
    destruct (findProgram line) as [[program rest]|]; [|done].
    destruct (parseOptions rest); [|done]. by injection Hm as <-. }
  split; [done|]. by rewrite Hraw.
Qed.

Lemma ScanString_rawline_idempotent_witness :
  let m := {| Program := str "vim";
              Options := {[ str "ai" := str "false";
                            str "cursorline" := str "true" ]};
              RawLine := str "# vim:noai:cursorline" |} in
  RawLine m = str "# vim:noai:cursorline"
  ∧ ScanString (mkScanner false false 1) (RawLine m) = Ok m.
Proof.
  intros m.
  apply (ScanString_rawline_idempotent defaultScanner).
  vm_compute. reflexivity.
Defined.

(** C9: the program of a successful parse is a non-empty identifier; a line
    without a program identifier fails, it never succeeds with an empty
    program. *)
Theorem ScanString_program_nonempty (s : Scanner) (line : gostring) :
  (∀ m, ScanString s line = Ok m →
        Program m ≠ [] ∧ Forall (λ c, isWordChar c = true) (Program m))
  ∧ ((∀ pre ws ident rest, ¬ programMatch line pre ws ident rest) →
     ScanString s line = Err ErrNoModeline).
Proof.
  split.
  - intros m. rewrite ScanString_unfold.
    pose proof (findProgram_spec line) as Hspec.
    destruct (findProgram line) as [[program rest]|]; [|done].
    destruct (parseOptions rest); [|done]. intros [= <-]. simpl.
    by destruct Hspec as (pre & ws & (_ & _ & _ & ? & ?) & _).
  - intros Hno. apply ScanString_NoModeline, findProgram_no_match.
    intros (pre & ws & ident & rest & Hm). by eapply Hno.
Qed.

Lemma ScanString_program_nonempty_witness :
  ScanString defaultScanner (str "vim:sw=3") = Err ErrNoModeline.
Proof.
  apply (ScanString_program_nonempty defaultScanner (str "vim:sw=3")).
  intros pre ws ident rest (Hl & Hws & Hb & _).
  assert (Hin : " "%char ∈ str "vim:sw=3"
                ∨ "009"%char ∈ str "vim:sw=3").
  { destruct ws as [|c ws]; [done|]. inversion Hb as [|? ? Hc _]; subst.
    unfold isBlank in Hc. apply orb_true_iff in Hc as [Hc|Hc];
      apply bool_decide_eq_true in Hc; subst c; [left|right];
      rewrite Hl; apply elem_of_app; right; by left. }
  vm_compute in Hin.
  destruct Hin as [Hin|Hin];
    by repeat (apply elem_of_cons in Hin as [?|Hin]; [done|]);
       apply elem_of_nil in Hin.
Defined.

(** C10: every key of the options mapping of a successful parse is non-empty;
    a token whose decoded name is empty, such as ["=value"], leaves the
    mapping unchanged. *)
Theorem options_keys_nonempty
    (s : Scanner) (line : gostring) (m : Modeline) (k v : gostring) :
  (ScanString s line = Ok m → Options m !! k = Some v → k ≠ [])
  ∧ (∀ options token, (parseOption token).1 = [] →
                      addOption options token = options)
  ∧ parseOption (str "=value") = ([], str "value")
  ∧ parseFirstForm (str "=value") = ∅.
Proof.
  split; [|split; [|split; vm_compute; reflexivity]].
  - rewrite ScanString_unfold.
    destruct (findProgram line) as [[program rest]|]; [|done].
    destruct (parseOptions rest) as [options|] eqn:Hopt; [|done].
    intros [= <-]. simpl. by eapply parseOptions_keys.
  - intros options token Hname. unfold addOption.
    case_bool_decide; [done|].
    destruct (parseOption token) as [key value]. simpl in Hname. subst key.
    rewrite bool_decide_eq_false_2; [done|tauto].
Qed.

Lemma options_keys_nonempty_witness : str "sw" ≠ [].
Proof.
  refine (proj1 (options_keys_nonempty defaultScanner (str "# vim: sw=3")
    {| Program := str "vim";
       Options := {[ str "sw" := str "3" ]};
       RawLine := str "# vim: sw=3" |} (str "sw") (str "3")) _ _).
  - vm_compute. reflexivity.
  - vm_compute. reflexivity.
Defined.

(** * Further properties of the code *)

(** ** [Scan]: the two windows *)

(** X1: a top-only scan of a source read without error returns the
    modelines of the first [MaxLines] lines, in order. On any source it never
    panics, and whenever it returns modelines they are those of the first
    [MaxLines] lines. *)
Theorem Scan_top_only (s : Scanner) (lines : list gostring) (r : Reader) :
  ScanTop s = true → ScanBottom s = false → is_int (MaxLines s) →
  Scan s (NewReader lines)
  = Returns (omap (parsed s) (take (Z.to_nat (MaxLines s)) lines))
  ∧ Scan s r ≠ Panics
  ∧ (∀ ms, Scan s r = Returns ms →
           ms = omap (parsed s) (take (Z.to_nat (MaxLines s)) (rd_lines r))).
Proof.
  intros Htop Hbot HM. rewrite !Scan_top_only_eq by done.
  cbn [rd_lines rd_err NewReader]. rewrite andb_false_r.
  split; [done|].
  destruct (_ && _) eqn:Hcase.
  - apply andb_true_iff in Hcase as [_ [err Herr]%bool_decide_eq_true].
    rewrite Herr. by split.
  - split; [done|]. by intros ms [= <-].
Qed.

Lemma Scan_top_only_witness :
  Scan (mkScanner true false 2)
       (NewReader [str "# vim: sw=3"; str "line 2"; str "# vi: ts=4"])
  = Returns (omap (parsed (mkScanner true false 2))
                  (take 2 [str "# vim: sw=3"; str "line 2"; str "# vi: ts=4"])).
Proof.
  refine (proj1 (Scan_top_only (mkScanner true false 2)
                   [str "# vim: sw=3"; str "line 2"; str "# vi: ts=4"]
                   (NewReader []) _ _ _));
    [reflexivity|reflexivity|unfold is_int; simpl; lia].
Defined.

(** X2: for a source read without error, what follows the first [MaxLines]
    lines does not change the result of a top-only scan. *)
Theorem Scan_top_only_ignores_tail
    (s : Scanner) (lines more : list gostring) :
  ScanTop s = true → ScanBottom s = false → is_int (MaxLines s) →
  (Z.to_nat (MaxLines s) ≤ length lines)%nat →
  Scan s (NewReader (lines ++ more)) = Scan s (NewReader lines).
Proof.
  intros Htop Hbot HM Hlen. rewrite !Scan_top_only_eq by done.
  cbn [rd_lines rd_err NewReader]. rewrite !andb_false_r.
  by rewrite take_app_le by lia.
Qed.

Lemma Scan_top_only_ignores_tail_witness :
  Scan (mkScanner true false 1)
       (NewReader ([str "# vim: sw=3"; str "line 2"] ++ [str "# vi: ts=4"]))
  = Scan (mkScanner true false 1)
         (NewReader [str "# vim: sw=3"; str "line 2"]).
Proof.
  apply Scan_top_only_ignores_tail;
    [reflexivity|reflexivity|unfold is_int; simpl; lia|simpl; lia].
Defined.

(** X3: whenever a bottom-only scan returns modelines, they are those of the
    last [MaxLines] lines of the source (of all lines, when there are fewer),
    in source order. *)
Theorem Scan_bottom_only (s : Scanner) (r : Reader) (ms : list Modeline) :
  ScanTop s = false → ScanBottom s = true →
  is_int (MaxLines s) → Z.of_nat (length (rd_lines r)) < 2 ^ 63 →
  Scan s r = Returns ms →
  ms = omap (parsed s) (lastn (Z.to_nat (MaxLines s)) (rd_lines r)).
Proof.
  intros Htop Hbot HM Hn Hret.
  rewrite (Scan_returns_int s r ms HM Hn Hret).
  rewrite scanPositions_one_window by (by rewrite Htop, Hbot).
  unfold windowPositions. rewrite Htop, Hbot. apply parsedAt_lastn.
Qed.

Lemma Scan_bottom_only_witness :
  [ {| Program := str "vi";
       Options := {[ str "ts" := str "4" ]};
       RawLine := str "# vi: ts=4" |} ]
  = omap (parsed (mkScanner false true 2))
         (lastn 2 [str "# vim: sw=3"; str "line 2"; str "# vi: ts=4"]).
Proof.
  apply (Scan_bottom_only (mkScanner false true 2)
           (NewReader [str "# vim: sw=3"; str "line 2"; str "# vi: ts=4"]));
    [reflexivity|reflexivity|unfold is_int; simpl; lia|simpl; lia
    |vm_compute; reflexivity].
Defined.

(** X4: with both windows and a source of at most [MaxLines] lines, every
    line is parsed exactly once: whenever the scan returns modelines, they
    are the modelines of all lines, in source order. *)
Theorem Scan_both_short (s : Scanner) (r : Reader) (ms : list Modeline) :
  ScanTop s = true → ScanBottom s = true →
  is_int (MaxLines s) → Z.of_nat (length (rd_lines r)) ≤ MaxLines s →
  Scan s r = Returns ms →
  ms = omap (parsed s) (rd_lines r).
Proof.
  intros Htop Hbot HM Hn Hret.
  rewrite (Scan_returns_int s r ms HM) by (done || unfold is_int in HM; lia).
  unfold scanPositions. rewrite (bool_decide_eq_false_2 (_ < _)%nat) by lia.
  rewrite andb_false_r. unfold windowPositions. rewrite Htop, Hbot.
  rewrite decide_True by lia. rewrite parsedAt_firstn.
  by rewrite take_ge by lia.
Qed.

Lemma Scan_both_short_witness :
  [ {| Program := str "vim";
       Options := {[ str "sw" := str "3" ]};
       RawLine := str "# vim: sw=3" |} ]
  = omap (parsed defaultScanner) [str "# vim: sw=3"; str "line 2"].
Proof.
  apply (Scan_both_short defaultScanner
           (NewReader [str "# vim: sw=3"; str "line 2"]));
    [reflexivity|reflexivity|unfold is_int; simpl; lia|simpl; lia
    |vm_compute; reflexivity].
Defined.

(** X5: with both windows and a source of more than [2 * MaxLines] lines,
    whenever the scan returns modelines, they are those of the first
    [MaxLines] lines followed by those of the last [MaxLines] lines. *)
Theorem Scan_both_long (s : Scanner) (r : Reader) (ms : list Modeline) :
  ScanTop s = true → ScanBottom s = true →
  1 ≤ MaxLines s →
  2 * MaxLines s < Z.of_nat (length (rd_lines r)) < 2 ^ 63 →
  Scan s r = Returns ms →
  ms = omap (parsed s) (take (Z.to_nat (MaxLines s)) (rd_lines r))
       ++ omap (parsed s) (lastn (Z.to_nat (MaxLines s)) (rd_lines r)).
Proof.
  intros Htop Hbot HM Hn Hret.
  rewrite (Scan_returns_int s r ms) by (done || unfold is_int; lia).
  rewrite scanPositions_small by lia.
  unfold windowPositions. rewrite Htop, Hbot.
  rewrite decide_False by lia. rewrite parsedAt_app. f_equal.
  - rewrite <-parsedAt_firstn. do 2 f_equal. lia.
  - rewrite <-parsedAt_lastn. do 2 f_equal. lia.
Qed.

Lemma Scan_both_long_witness :
  [ {| Program := str "vim";
       Options := {[ str "sw" := str "3" ]};
       RawLine := str "# vim: sw=3" |};
    {| Program := str "vi";
       Options := {[ str "ts" := str "4" ]};
       RawLine := str "# vi: ts=4" |} ]
  = omap (parsed (mkScanner true true 1))
         (take 1 [str "# vim: sw=3"; str "line 2"; str "# vi: ts=4"])
    ++ omap (parsed (mkScanner true true 1))
            (lastn 1 [str "# vim: sw=3"; str "line 2"; str "# vi: ts=4"]).
Proof.
  apply (Scan_both_long (mkScanner true true 1)
           (NewReader [str "# vim: sw=3"; str "line 2"; str "# vi: ts=4"]));
    [reflexivity|reflexivity|simpl; lia|simpl; lia|vm_compute; reflexivity].
Defined.

(** ** [Scan]: errors and panics *)

(** X6: when the bottom window is selected, a source that ends in a read
    error never yields modelines, not even those already found in the top
    window: [Scan] returns that error, unless it panics. *)
Theorem Scan_read_error (s : Scanner) (r : Reader) (err : error) :
  ScanBottom s = true → rd_err r = Some err →
  Scan s r = Fails err ∨ Scan s r = Panics.
Proof. apply Scan_error_bottom. Qed.

Lemma Scan_read_error_witness :
  Scan defaultScanner
       (mkReader [str "# vim: sw=3"; str "line 2"] (Some (ErrRead 3)))
  = Fails (ErrRead 3)
  ∨ Scan defaultScanner
         (mkReader [str "# vim: sw=3"; str "line 2"] (Some (ErrRead 3)))
    = Panics.
Proof. apply Scan_read_error; reflexivity. Defined.

(** X8: with the bottom window selected, a window size that is not positive
    and a source read without error, [Scan] panics exactly when the size is
    negative (the buffer cannot be made) or a line reaches the bottom loop
    (the empty buffer cannot be shifted): one line for a bottom-only scan,
    two lines when the top window is selected too, whose loop consumes the
    first one. *)
Theorem Scan_nonpositive_panics (s : Scanner) (lines : list gostring) :
  ScanBottom s = true → MaxLines s ≤ 0 →
  Scan s (NewReader lines) = Panics
  ↔ MaxLines s < 0
    ∨ ((if ScanTop s then 2 else 1) ≤ length lines)%nat.
Proof.
  intros Hbot HM. unfold Scan.
  cbn [rd_lines rd_err NewReader]. rewrite Hbot.
  assert (Hlt : (0 <? MaxLines s) = false) by (apply Z.ltb_ge; lia).
  destruct (Z.ltb_spec (MaxLines s) 0) as [Hneg|Hzero];
    [destruct (ScanTop s); cbn [negb andb]; split; auto|].
  assert (Hle : (0 <=? MaxLines s) = true) by (apply Z.leb_le; lia).
  destruct (ScanTop s) eqn:Htop; cbn [negb andb].
  - destruct lines as [|l1 [|l2 lines]];
      repeat (progress (cbn [topLoop scannerErr rd_err NewReader bottomLoop
                             length Z.of_nat shiftIn];
                        change (Z.of_nat 0) with 0; rewrite ?Hlt, ?Hle));
      (split; [first [done | intros _; right; simpl; lia]
              |first [done | intros [?|Hlen]; [lia|simpl in Hlen; lia]]]).
  - destruct lines as [|l1 lines];
      repeat (progress (cbn [bottomLoop length Z.of_nat shiftIn parseFrom
                             Z.sub Z.to_nat Z.opp Z.add];
                        change (Z.of_nat 0) with 0; rewrite ?Hlt));
      (split; [first [done | intros _; right; simpl; lia]
              |first [done | intros [?|Hlen]; [lia|simpl in Hlen; lia]]]).
Qed.

Lemma Scan_nonpositive_panics_witness :
  Scan (mkScanner false true 0) (NewReader [str "# vim: sw=3"]) = Panics.
Proof.
  apply (Scan_nonpositive_panics (mkScanner false true 0));
    [reflexivity|simpl; lia|right; simpl; lia].
Defined.

(** ** [Scan]: what the results are *)












(** X12: selecting the bottom window in addition to the top window only adds
    results after those of the top window: whenever both scans of a source
    return modelines, the result of the top-only scan is a prefix of the
    result of the scan with both windows. *)
Theorem Scan_top_prefix_of_both
    (M : Z) (r : Reader) (top both : list Modeline) :
  is_int M → Z.of_nat (length (rd_lines r)) < 2 ^ 63 →
  Scan (mkScanner true false M) r = Returns top →
  Scan (mkScanner true true M) r = Returns both →
  top `prefix_of` both.
Proof.
  intros HM Hn Htop Hboth.
  rewrite (Scan_returns_int (mkScanner true false M) r top HM Hn Htop).
  rewrite (Scan_returns_int (mkScanner true true M) r both HM Hn Hboth).
  change (parsedAt (mkScanner true true M))
    with (parsedAt (mkScanner true false M)).
  rewrite scanPositions_one_window by done.
  unfold scanPositions, windowPositions. cbn [ScanTop ScanBottom MaxLines].
  destruct (_ && bool_decide _) eqn:Hcase.
  - apply andb_true_iff in Hcase as [_ Hlen%bool_decide_eq_true].
    rewrite parsedAt_app.
    replace (Z.to_nat M `min` length (rd_lines r))%nat with (Z.to_nat M)
      by lia.
    by eexists.
  - clear Hcase. case_decide as Hlen; [reflexivity|]. rewrite parsedAt_app.
    replace (Z.to_nat M `min` length (rd_lines r))%nat with (Z.to_nat M)
      by lia.
    by eexists.
Qed.

Lemma Scan_top_prefix_of_both_witness :
  [ {| Program := str "vim";
       Options := {[ str "sw" := str "3" ]};
       RawLine := str "# vim: sw=3" |} ]
  `prefix_of`
  [ {| Program := str "vim";
       Options := {[ str "sw" := str "3" ]};
       RawLine := str "# vim: sw=3" |};
    {| Program := str "vi";
       Options := {[ str "ts" := str "4" ]};
       RawLine := str "# vi: ts=4" |} ].
Proof.
  apply (Scan_top_prefix_of_both 1
           (NewReader [str "# vim: sw=3"; str "line 2"; str "# vi: ts=4"]));
    [unfold is_int; lia|simpl; lia|vm_compute; reflexivity
    |vm_compute; reflexivity].
Defined.

(** ** [ScanFile] and the package-level functions *)

(** X13: the package-level [ScanFile] returns the error of [os.Open] when
    the file cannot be opened, without scanning. On a file that can be read
    it scans with the default configuration: all modelines of a file of at
    most 5 lines, and the modelines of the first 5 and of the last 5 lines of
    a file of more than 10 lines. *)
Theorem ScanFile_default
    (osOpen : gostring → result Reader) (path : gostring) :
  (∀ err, osOpen path = Err err → modeline.ScanFile osOpen path = Fails err)
  ∧ (∀ lines, osOpen path = Ok (NewReader lines) →
       ((length lines ≤ 5)%nat →
        modeline.ScanFile osOpen path
        = Returns (omap (parsed defaultScanner) lines))
       ∧ ((10 < length lines)%nat → Z.of_nat (length lines) < 2 ^ 63 →
          modeline.ScanFile osOpen path
          = Returns (omap (parsed defaultScanner) (take 5 lines)
                     ++ omap (parsed defaultScanner) (lastn 5 lines)))).
Proof.
  unfold modeline.ScanFile, ScanFile. split.
  - by intros err ->.
  - intros lines ->. split.
    + intros Hlen. rewrite Scan_window by (simpl; lia).
      unfold windowPositions. cbn [ScanTop ScanBottom MaxLines defaultScanner].
      rewrite decide_True by lia. rewrite parsedAt_firstn.
      by rewrite take_ge by lia.
    + intros Hlen Hn. rewrite Scan_window by (simpl; lia).
      unfold windowPositions. cbn [ScanTop ScanBottom MaxLines defaultScanner].
      rewrite decide_False by lia. rewrite parsedAt_app. f_equal. f_equal.
      * rewrite <-parsedAt_firstn. do 2 f_equal. lia.
      * rewrite <-parsedAt_lastn. do 2 f_equal. lia.
Qed.

Lemma ScanFile_default_witness :
  let osOpen := λ path : gostring,
    if bool_decide (path = str "notes.txt")
    then Ok (NewReader [str "# vim: sw=3"; str "line 2"])
    else Err (ErrRead 2) in
  modeline.ScanFile osOpen (str "missing.txt") = Fails (ErrRead 2)
  ∧ modeline.ScanFile osOpen (str "notes.txt")
    = Returns (omap (parsed defaultScanner) [str "# vim: sw=3"; str "line 2"]).
Proof.
  intros osOpen. split.
  - apply (proj1 (ScanFile_default osOpen (str "missing.txt"))). reflexivity.
  - apply (proj2 (ScanFile_default osOpen (str "notes.txt"))
             [str "# vim: sw=3"; str "line 2"]); [reflexivity|simpl; lia].
Defined.

(** ** [parseFirstForm]: how option regions compose *)

Lemma FieldsFunc_go_sep f cur a sep b :
  f sep = true →
  strings.FieldsFunc_go f cur (a ++ sep :: b)
  = strings.FieldsFunc_go f cur a ++ strings.FieldsFunc_go f [] b.
Proof.
  intros Hsep. revert cur. induction a as [|c a IH]; intros cur; simpl.
  - rewrite Hsep. by case_bool_decide.
  - destruct (f c); [|apply IH]. case_bool_decide; by rewrite IH.
Qed.

Lemma addOption_union options token :
  addOption options token = addOption ∅ token ∪ options.
Proof.
  unfold addOption. case_bool_decide; [by rewrite (left_id ∅ (∪))|].
  destruct (parseOption token) as [key value].
  case_bool_decide; [|by rewrite (left_id ∅ (∪))].
  by rewrite insert_empty, insert_union_singleton_l.
Qed.

Lemma foldl_addOption_union options tokens :
  foldl addOption options tokens = foldl addOption ∅ tokens ∪ options.
Proof.
  revert options. induction tokens as [|t tokens IH]; intros options; simpl.
  - by rewrite (left_id ∅ (∪)).
  - rewrite IH, (IH (addOption ∅ t)), (addOption_union options t).
    by rewrite (assoc_L (∪)).
Qed.

(** X14: the options of two regions joined by a separator are the options
    of the second region, completed by those of the first region for the
    names that the second one does not set. *)
Theorem parseFirstForm_app (a b : gostring) (sep : ascii) :
  isSeparator sep = true →
  parseFirstForm (a ++ sep :: b) = parseFirstForm b ∪ parseFirstForm a.
Proof.
  intros Hsep. unfold parseFirstForm, strings.FieldsFunc.
  rewrite FieldsFunc_go_sep by done.
  by rewrite foldl_app, foldl_addOption_union.
Qed.

Lemma parseFirstForm_app_witness :
  parseFirstForm (str "sw=3 noai" ++ ":"%char :: str "sw=4")
  = parseFirstForm (str "sw=4") ∪ parseFirstForm (str "sw=3 noai").
Proof. apply parseFirstForm_app. reflexivity. Defined.

Lemma FieldsFunc_go_fmap f (g : ascii → ascii) cur s :
  (∀ c, f (g c) = f c) → (∀ c, f c = false → g c = c) →
  strings.FieldsFunc_go f cur (g <$> s) = strings.FieldsFunc_go f cur s.
Proof.
  intros Hf Hg. revert cur. induction s as [|c s IH]; intros cur; [done|].
  cbn [fmap list_fmap strings.FieldsFunc_go].
  change (list_fmap ascii ascii g s) with (g <$> s).
  rewrite Hf. destruct (f c) eqn:Hc.
  - case_bool_decide; by rewrite IH.
  - rewrite (Hg c Hc). apply IH.
Qed.

(** X15: spaces, tabs and colons are interchangeable in an option region:
    replacing separators by separators, all other bytes being kept, does not
    change the options. *)
Theorem parseFirstForm_separators (g : ascii → ascii) (text : gostring) :
  (∀ c, isSeparator (g c) = isSeparator c) →
  (∀ c, isSeparator c = false → g c = c) →
  parseFirstForm (g <$> text) = parseFirstForm text.
Proof.
  intros Hf Hg. unfold parseFirstForm, strings.FieldsFunc.
  by rewrite FieldsFunc_go_fmap.
Qed.

Lemma parseFirstForm_separators_witness :
  parseFirstForm
    ((λ c, if bool_decide (c = ":"%char) then " "%char else c)
       <$> str "sw=3:foldmethod=marker")
  = parseFirstForm (str "sw=3:foldmethod=marker").
Proof.
  apply parseFirstForm_separators.
  - intros c. case_bool_decide as Hc; [by subst c|done].
  - intros c Hc. case_bool_decide as Hc'; [by subst c|done].
Defined.

Lemma addOption_empty_iff options token :
  addOption options token = ∅ ↔ options = ∅ ∧ (parseOption token).1 = [].
Proof.
  unfold addOption. case_bool_decide as Htok.
  - subst token. split; [by intros ->|by intros [-> _]].
  - destruct (parseOption token) as [key value]. simpl.
    case_bool_decide as Hkey.
    + split; [by intros ?%insert_non_empty|by intros [_ ?]].
    + split; [intros ->; split; [done|tauto]|by intros [-> _]].
Qed.

Lemma foldl_addOption_empty_iff options tokens :
  foldl addOption options tokens = ∅
  ↔ options = ∅ ∧ Forall (λ t, (parseOption t).1 = []) tokens.
Proof.
  revert options. induction tokens as [|t tokens IH]; intros options; simpl.
  - split; [by intros ->|by intros [-> _]].
  - rewrite IH, addOption_empty_iff, Forall_cons. tauto.
Qed.

Lemma parseOption_key_empty token :
  token ≠ [] →
  (parseOption token).1 = [] ↔ ∃ value, token = "="%char :: value.
Proof.
  intros Htok. split.
  - intros Hkey. pose proof (parseOption_decodes token) as Hdec.
    rewrite Hkey in Hdec.
    inversion Hdec as [name value ?|name ? ?|]; subst; [by eexists|done].
  - intros [value ->].
    by rewrite (decodes_parseOption _ [] value)
      by (apply (decodes_assign [] value); by intros ?%elem_of_nil).
Qed.

(** X16: the options mapping of a region is empty exactly when every token
    of the region begins with ['=']; so it is empty for a region made of
    separators only. *)
Theorem parseFirstForm_empty_iff (text : gostring) :
  parseFirstForm text = ∅
  ↔ Forall (λ t, ∃ value, t = "="%char :: value)
           (strings.FieldsFunc text isSeparator).
Proof.
  unfold parseFirstForm. rewrite foldl_addOption_empty_iff.
  pose proof (FieldsFunc_go_fields isSeparator [] text (Forall_nil_2 _))
    as Hfields.
  fold (strings.FieldsFunc text isSeparator) in Hfields.
  rewrite !Forall_forall in *. split.
  - intros [_ Hkeys] t Ht. apply parseOption_key_empty; [|by apply Hkeys].
    by apply Hfields.
  - intros Htokens. split; [done|]. intros t Ht.
    apply parseOption_key_empty; [|by apply Htokens]. by apply Hfields.
Qed.

(** ** The options of a parsed modeline *)

Lemma parseOption_parts token key value :
  parseOption token = (key, value) →
  Forall (λ c, isSeparator c = false) token →
  ("="%char ∉ key)
  ∧ Forall (λ c, isSeparator c = false) key
  ∧ Forall (λ c, isSeparator c = false) value.
Proof.
  intros Hdec%parseOption_iff Htoken.
  destruct Hdec as [name value Hname|name Hname Hne|token Hname Hno].
  - apply Forall_app in Htoken as [Hk Hv]. by inversion Hv.
  - apply Forall_app in Htoken as [_ Hk]. split; [done|]. split; [done|].
    by repeat constructor.
  - split; [done|]. split; [done|]. by repeat constructor.
Qed.

Lemma parseFirstForm_parts text key value :
  parseFirstForm text !! key = Some value →
  ("="%char ∉ key)
  ∧ Forall (λ c, isSeparator c = false) key
  ∧ Forall (λ c, isSeparator c = false) value.
Proof.
  intros (_ & before & token & after & Heq & Hdec & _)%parseFirstForm_lookup.
  pose proof (FieldsFunc_go_fields isSeparator [] text (Forall_nil_2 _))
    as Hfields.
  fold (strings.FieldsFunc text isSeparator) in Hfields.
  rewrite Heq in Hfields. apply Forall_app in Hfields as [_ Hfields].
  inversion Hfields as [|? ? [_ Htoken] _]; subst.
  apply parseOption_parts with token; [by apply parseOption_iff|done].
Qed.

Lemma parseOptions_form rest options :
  parseOptions rest = Ok options →
  options = ∅ ∨ ∃ text, options = parseFirstForm text.
Proof.
  unfold parseOptions, parseSecondForm.
  repeat match goal with
         | |- context [if ?b then _ else _] => destruct b
         end; intros [= <-]; eauto.
Qed.

(** X17: in the options of a parsed modeline no name contains ['='], a
    space, a tab or a colon, and no value contains a space, a tab or a
    colon. *)
Theorem options_wellformed
    (s : Scanner) (line : gostring) (m : Modeline) (key value : gostring) :
  ScanString s line = Ok m → Options m !! key = Some value →
  ("="%char ∉ key)
  ∧ Forall (λ c, isSeparator c = false) key
  ∧ Forall (λ c, isSeparator c = false) value.
Proof.
  rewrite ScanString_unfold.
  destruct (findProgram line) as [[program rest]|]; [|done].
  destruct (parseOptions rest) as [options|] eqn:Hopt; [|done].
  intros [= <-]. simpl.
  destruct (parseOptions_form _ _ Hopt) as [->|[text ->]].
  - by rewrite lookup_empty.
  - apply parseFirstForm_parts.
Qed.

Lemma options_wellformed_witness :
  ("="%char ∉ str "sw")
  ∧ Forall (λ c, isSeparator c = false) (str "sw")
  ∧ Forall (λ c, isSeparator c = false) (str "3").
Proof.
  apply (options_wellformed defaultScanner (str "# vim: sw=3")
    {| Program := str "vim";
       Options := {[ str "sw" := str "3" ]};
       RawLine := str "# vim: sw=3" |}).
  - vm_compute. reflexivity.
  - vm_compute. reflexivity.
Defined.

(** ** [parseOptions] and [findProgram]: what does not matter *)

Lemma skip_app_all p a b :
  Forall (λ c, p c = true) a → skip p (a ++ b) = skip p b.
Proof. induction 1 as [|c a Hc _ IH]; simpl; [done|]. by rewrite Hc. Qed.

Lemma parseOptions_blanks ws rest :
  Forall (λ c, isBlank c = true) ws →
  parseOptions (ws ++ rest) = parseOptions rest.
Proof.
  intros Hws. unfold parseOptions. by rewrite !TrimLeft_blanks, skip_app_all.
Qed.

(** X18: spaces and tabs between the colon of the program and the options
    do not matter: [parseOptions] gives the same result with and without
    them. *)
Theorem parseOptions_leading_blanks (ws rest : gostring) :
  Forall (λ c, isBlank c = true) ws →
  parseOptions (ws ++ rest) = parseOptions rest.
Proof. apply parseOptions_blanks. Qed.

Lemma parseOptions_leading_blanks_witness :
  parseOptions (str "  " ++ str "sw=3") = parseOptions (str "sw=3").
Proof. apply parseOptions_leading_blanks. by repeat constructor. Defined.

(** X19: a second form without a closing colon gives no option at all,
    whatever the tokens after the keyword: the options mapping is empty and
    no error is reported. *)
Theorem parseOptions_unterminated (ws keyword region : gostring) :
  Forall (λ c, isBlank c = true) ws →
  keyword = str "set " ∨ keyword = str "se " →
  ":"%char ∉ region →
  parseOptions (ws ++ keyword ++ region) = Ok ∅.
Proof.
  intros Hws Hkw Hregion. rewrite parseOptions_blanks by done.
  unfold parseOptions. rewrite TrimLeft_blanks.
  destruct Hkw as [-> | ->].
  - change (skip isBlank (str "set " ++ region)) with (str "set " ++ region).
    rewrite (proj2 (HasPrefix_spec _ _)) by by eexists.
    change (drop 4 (str "set " ++ region)) with region.
    by apply parseSecondForm_unterminated.
  - change (skip isBlank (str "se " ++ region)) with (str "se " ++ region).
    destruct (strings.HasPrefix (str "se " ++ region) (str "set ")) eqn:Hset.
    { apply HasPrefix_spec in Hset as [k Hk]. discriminate. }
    rewrite (proj2 (HasPrefix_spec _ _)) by by eexists.
    change (drop 3 (str "se " ++ region)) with region.
    by apply parseSecondForm_unterminated.
Qed.

Lemma parseOptions_unterminated_witness :
  parseOptions (str " " ++ str "set " ++ str "sw=3 noai") = Ok ∅.
Proof.
  apply parseOptions_unterminated; [by repeat constructor|by left|].
  intros Hin. vm_compute in Hin.
  by repeat (apply elem_of_cons in Hin as [?|Hin]; [done|]);
     apply elem_of_nil in Hin.
Defined.

Lemma findProgram_nonblank_prefix pre line :
  Forall (λ c, isBlank c = false) pre →
  findProgram (pre ++ line) = findProgram line.
Proof. induction 1 as [|c pre Hc _ IH]; simpl; [done|]. by rewrite Hc. Qed.

(** X20: text without space or tab put in front of a line changes neither
    whether the line parses, nor its error, nor the program and the options
    found; only [RawLine] follows the new line. *)
Theorem ScanString_nonblank_prefix (s : Scanner) (pre line : gostring) :
  Forall (λ c, isBlank c = false) pre →
  ScanString s (pre ++ line)
  = match ScanString s line with
    | Ok m => Ok {| Program := Program m; Options := Options m;
                    RawLine := pre ++ line |}
    | Err e => Err e
    end.
Proof.
  intros Hpre. rewrite !ScanString_unfold, findProgram_nonblank_prefix by done.
  destruct (findProgram line) as [[program rest]|]; [|done].
  by destruct (parseOptions rest).
Qed.

Lemma ScanString_nonblank_prefix_witness :
  ScanString defaultScanner (str "//" ++ str "# vim: sw=3")
  = match ScanString defaultScanner (str "# vim: sw=3") with
    | Ok m => Ok {| Program := Program m; Options := Options m;
                    RawLine := str "//" ++ str "# vim: sw=3" |}
    | Err e => Err e
    end.
Proof. apply ScanString_nonblank_prefix. by repeat constructor. Defined.

(** ** [compareModeline] *)

(** X21: the test helper [compareModeline] returns [true] exactly when the
    two modelines are equal: same program, same options mapping and same raw
    line. Comparing the sizes and looking up every option of [want] in [got]
    is enough for the mappings to be equal. *)
Theorem compareModeline_true_iff (got want : Modeline) :
  compareModeline got want = true ↔ got = want.
Proof.
  unfold compareModeline. split.
  - destruct got as [gp go gr], want as [wp wo wr]. cbn [Program Options RawLine].
    destruct (forallb _ (map_to_list wo)) eqn:Hall; cbn [negb];
      repeat case_bool_decide; try done.
    intros _. subst gp gr. f_equal. symmetry.
    apply map_subseteq_size_eq; [|lia].
    apply map_subseteq_spec. intros k v Hkv.
    rewrite forallb_forall in Hall.
    assert (Hin : In (k, v) (map_to_list wo))
      by (by apply list_elem_of_In, elem_of_map_to_list).
    apply Hall in Hin. simpl in Hin.
    destruct (go !! k) as [gotVal|]; [|done].
    apply bool_decide_eq_true in Hin. by subst gotVal.
  - intros ->. rewrite !bool_decide_eq_false_2 by tauto.
    replace (forallb _ _) with true; [done|]. symmetry.
    apply forallb_forall. intros [k v] Hkv%list_elem_of_In%elem_of_map_to_list.
    simpl. rewrite Hkv. by apply bool_decide_eq_true_2.
Qed.

(** ** Writing a modeline and parsing it back *)

Lemma FieldsFunc_go_token f cur token :
  Forall (λ c, f c = false) token → cur ++ token ≠ [] →
  strings.FieldsFunc_go f cur token = [cur ++ token].
Proof.
  intros Htoken. revert cur.
  induction Htoken as [|c token Hc _ IH]; intros cur Hne; simpl.
  - rewrite app_nil_r in *. by rewrite bool_decide_eq_false_2.
  - rewrite Hc, IH by (by destruct cur). by rewrite <-app_assoc.
Qed.

Lemma parseFirstForm_token token :
  Forall (λ c, isSeparator c = false) token → token ≠ [] →
  parseFirstForm token = addOption ∅ token.
Proof.
  intros Htoken Hne. unfold parseFirstForm, strings.FieldsFunc.
  by rewrite (FieldsFunc_go_token _ [] token).
Qed.

Lemma addOption_decodes options token key value :
  decodes token key value → key ≠ [] →
  addOption options token = <[key := value]> options.
Proof.
  intros Hdec Hkey. unfold addOption.
  rewrite (decodes_parseOption _ _ _ Hdec).
  rewrite bool_decide_eq_false_2.
  - by rewrite bool_decide_eq_true_2.
  - intros ->. apply Hkey. apply decodes_parseOption in Hdec.
    by injection Hdec as <- _.
Qed.

Lemma parseFirstForm_assign key value :
  key ≠ [] → "="%char ∉ key →
  Forall (λ c, isSeparator c = false) key →
  Forall (λ c, isSeparator c = false) value →
  parseFirstForm (key ++ "="%char :: value) = {[ key := value ]}.
Proof.
  intros Hne Heq Hkey Hvalue. rewrite parseFirstForm_token.
  - rewrite (addOption_decodes _ _ key value); [|by constructor|done].
    by rewrite insert_empty.
  - apply Forall_app. split; [done|]. by constructor.
  - by destruct key.
Qed.

(** X22: writing an option and reading it back. For a non-empty name
    without ['='] or separator and a value without separator, the region
    [name=value] gives exactly the option [name -> value], and the region
    [noname] gives exactly [name -> "false"]. *)
Theorem parseFirstForm_roundtrip (key value : gostring) :
  key ≠ [] → "="%char ∉ key →
  Forall (λ c, isSeparator c = false) key →
  Forall (λ c, isSeparator c = false) value →
  parseFirstForm (key ++ "="%char :: value) = {[ key := value ]}
  ∧ parseFirstForm (str "no" ++ key) = {[ key := str "false" ]}.
Proof.
  intros Hne Heq Hkey Hvalue. split; [by apply parseFirstForm_assign|].
  rewrite parseFirstForm_token.
  - rewrite (addOption_decodes _ _ key (str "false"));
      [|by constructor|done].
    by rewrite insert_empty.
  - apply Forall_app. split; [by repeat constructor|done].
  - done.
Qed.

Lemma parseFirstForm_roundtrip_witness :
  parseFirstForm (str "sw" ++ "="%char :: str "3")
  = {[ str "sw" := str "3" ]}
  ∧ parseFirstForm (str "no" ++ str "sw") = {[ str "sw" := str "false" ]}.
Proof.
  apply parseFirstForm_roundtrip; [done| |by repeat constructor..].
  intros Hin. vm_compute in Hin.
  by repeat (apply elem_of_cons in Hin as [?|Hin]; [done|]);
     apply elem_of_nil in Hin.
Defined.

Lemma separator_free_not_in (c : ascii) (text : gostring) :
  isSeparator c = true → Forall (λ c, isSeparator c = false) text → c ∉ text.
Proof.
  intros Hc Htext Hin. rewrite Forall_forall in Htext.
  specialize (Htext c Hin). congruence.
Qed.

(** X23: a first-form modeline written as ["# "], a program identifier,
    [": "] and one [name=value] option parses back to that program with
    exactly that option, and keeps the line. *)
Theorem ScanString_roundtrip (s : Scanner) (program key value : gostring) :
  program ≠ [] → Forall (λ c, isWordChar c = true) program →
  key ≠ [] → "="%char ∉ key →
  Forall (λ c, isSeparator c = false) key →
  Forall (λ c, isSeparator c = false) value →
  let line := str "# " ++ program ++ str ": " ++ key ++ "="%char :: value in
  ScanString s line
  = Ok {| Program := program; Options := {[ key := value ]};
          RawLine := line |}.
Proof.
  intros Hp Hword Hne Heq Hkey Hvalue line.
  set (region := key ++ "="%char :: value).
  assert (Hregion : Forall (λ c, isSeparator c = false) region).
  { apply Forall_app. split; [done|]. by constructor. }
  assert (Hfind : findProgram line = Ok (program, " "%char :: region)).
  { apply (findProgram_leftmost line (str "#") (str " ")).
    split; [|intros pre' ws' ident' rest' (Hl & Hws & Hb & _)].
    - by repeat split; [|repeat constructor| |].
    - destruct pre' as [|c pre']; [|simpl; lia].
      destruct ws' as [|c ws']; [done|]. simpl in Hl.
      injection Hl as <- _. by inversion Hb. }
  rewrite ScanString_unfold, Hfind.
  change (" "%char :: region) with ([" "%char] ++ region).
  rewrite (parseOptions_blanks [" "%char] region) by by repeat constructor.
  assert (Hstop : stopsAt isBlank region).
  { subst region. destruct Hkey as [|c key Hc _]; [done|]. simpl.
    unfold isSeparator in Hc. unfold isBlank.
    by apply orb_false_iff in Hc as [Hc _]. }
  rewrite (parseOptions_trimmed region [] region) by done.
  destruct (strings.HasPrefix region (str "set ")) eqn:Hset.
  { apply HasPrefix_spec in Hset as [k Hk].
    destruct (separator_free_not_in " "%char region); [done|done|].
    rewrite Hk. by repeat constructor. }
  destruct (strings.HasPrefix region (str "se ")) eqn:Hse.
  { apply HasPrefix_spec in Hse as [k Hk].
    destruct (separator_free_not_in " "%char region); [done|done|].
    rewrite Hk. by repeat constructor. }
  destruct (strings.HasSuffix (strings.TrimRight region blanks) (str ":"))
    eqn:Hcolon.
  { apply ends_with_colon in Hcolon as (t & ws & Hk & _).
    destruct (separator_free_not_in ":"%char region); [done|done|].
    rewrite Hk. apply elem_of_app. right. by left. }
  subst region.
  by rewrite (parseFirstForm_assign key value Hne Heq Hkey Hvalue).
Qed.

Lemma ScanString_roundtrip_witness :
  ScanString defaultScanner
    (str "# " ++ str "envctl" ++ str ": " ++ str "provider"
     ++ "="%char :: str "gsm")
  = Ok {| Program := str "envctl";
          Options := {[ str "provider" := str "gsm" ]};
          RawLine := str "# " ++ str "envctl" ++ str ": " ++ str "provider"
                     ++ "="%char :: str "gsm" |}.
Proof.
  apply (ScanString_roundtrip defaultScanner (str "envctl") (str "provider")
           (str "gsm")); [done|by repeat constructor|done|
                          |by repeat constructor..].
  intros Hin. vm_compute in Hin.
  by repeat (apply elem_of_cons in Hin as [?|Hin]; [done|]);
     apply elem_of_nil in Hin.
Defined.


